(** * dit.distconst: constructors of discrete distributions

    A shallow embedding of [src/dit/distconst.py] (Python 2, with
    [from __future__ import division]) and the properties of its five
    operations: [uniform_distribution], [uniform_joint_distribution],
    [random_distribution], [random_joint_distribution], [modify_outcomes].

    Python objects are first-order values; exceptions are an error type;
    the distribution objects live in a store, so that construction,
    in-place assignment of [pmf] and the frame of each call are explicit.
    Probabilities are exact rationals: the float that the interpreter
    stores for [1/n] is the rounding of the rational [1/n] used here. *)

From Stdlib Require Import ZArith QArith Lia Bool Ascii String List.
From stdpp Require Import base option list sorting.
Import ListNotations.

#[local] Open Scope string_scope.
#[local] Open Scope list_scope.
#[local] Open Scope Z_scope.

(** ** Values *)

(** The Python values the module is applied to: [None], integers (a [bool]
    is an [int] in Python), byte strings, lists and tuples. *)
#[warnings="-register-all"]
Inductive value : Type :=
  | VNone
  | VInt (z : Z)
  | VStr (s : string)
  | VList (l : list value)
  | VTuple (l : list value).

(** Induction over values that also descends into the elements of lists
    and tuples. *)
Lemma value_nested_ind (P : value → Prop) :
  P VNone →
  (∀ z, P (VInt z)) →
  (∀ s, P (VStr s)) →
  (∀ l, Forall P l → P (VList l)) →
  (∀ l, Forall P l → P (VTuple l)) →
  ∀ v, P v.
Proof.
  intros HN HI HS HL HT.
  fix IH 1. intros [ | z | s | l | l ].
  - exact HN.
  - apply HI.
  - apply HS.
  - apply HL. induction l as [ | x l IHl ]; constructor; [ apply IH | exact IHl ].
  - apply HT. induction l as [ | x l IHl ]; constructor; [ apply IH | exact IHl ].
Qed.

(** Equality of two lists, element by element. *)
Section ListEqb.
Context {A : Type} (eqb : A → A → bool).

Fixpoint list_eqb (l m : list A) {struct l} : bool :=
  match l, m with
  | [], [] => true
  | x :: l', y :: m' => eqb x y && list_eqb l' m'
  | _, _ => false
  end.

End ListEqb.

(** Python's [==] on these values. *)
Fixpoint value_eqb (a b : value) {struct a} : bool :=
  match a, b with
  | VNone, VNone => true
  | VInt x, VInt y => Z.eqb x y
  | VStr s, VStr t => String.eqb s t
  | VList l, VList m => list_eqb value_eqb l m
  | VTuple l, VTuple m => list_eqb value_eqb l m
  | _, _ => false
  end.

(** [x in l], by [==]. *)
Fixpoint contains (x : value) (l : list value) : bool :=
  match l with
  | [] => false
  | y :: l' => value_eqb x y || contains x l'
  end.

(** Whether some value occurs twice in [l]. *)
Fixpoint has_duplicates (l : list value) : bool :=
  match l with
  | [] => false
  | x :: l' => contains x l' || has_duplicates l'
  end.

(** ** Exceptions *)

(** Modelled from the spec: the validation failures of the distribution
    classes (section 7 of the specification names duplicate outcomes and a
    length mismatch between pmf and outcomes; an invalid base cannot be
    written with the type [base] below). The classes themselves are in
    [dit.npdist] and [dit.npjdist]. *)
Inductive validation : Type :=
  | DuplicateOutcomes
  | LengthMismatch.

Inductive exn : Type :=
  | TypeError (msg : string)
  | ValueError (msg : string)
  | ZeroDivisionError (msg : string)
  | AttributeError (msg : string)
  | IndexError (msg : string)
  | InvalidDistribution (why : validation).

Inductive result (A : Type) : Type :=
  | Ok (a : A)
  | Raise (e : exn).
Arguments Ok {A} a.
Arguments Raise {A} e.

Definition rbind {A B : Type} (r : result A) (k : A → result B) : result B :=
  match r with
  | Ok a => k a
  | Raise e => Raise e
  end.

Notation "'let!' x ':=' r 'in' k" := (rbind r (fun x => k))
  (at level 10, x pattern, r at level 100, k at level 200).

(** [map(f, l)] where [f] may raise: the first exception, left to right. *)
Fixpoint map_result {A B : Type} (f : A → result B) (l : list A) : result (list B) :=
  match l with
  | [] => Ok []
  | x :: l' => let! y := f x in let! ys := map_result f l' in Ok (y :: ys)
  end.

(** [try: body except TypeError: handler]. Any other exception of the body
    propagates. *)
Definition try_except_TypeError {A : Type} (body handler : result A) : result A :=
  match body with
  | Raise (TypeError _) => handler
  | _ => body
  end.

(** [try: body except TypeError: handler else: orelse]. The [else] suite runs
    after a body that did not raise, outside the protection of the [try]. *)
Definition try_except_TypeError_else {A B : Type}
    (body : result A) (handler : result B) (orelse : A → result B) : result B :=
  match body with
  | Ok a => orelse a
  | Raise (TypeError _) => handler
  | Raise e => Raise e
  end.

(** ** Built-ins *)

Definition type_name (v : value) : string :=
  match v with
  | VNone => "NoneType"
  | VInt _ => "int"
  | VStr _ => "str"
  | VList _ => "list"
  | VTuple _ => "tuple"
  end.

Definition chars (s : string) : list value :=
  map (fun c => VStr (String c EmptyString)) (list_ascii_of_string s).

(** The elements of a sized, iterable value, in iteration order. *)
Definition elements (v : value) : option (list value) :=
  match v with
  | VList l => Some l
  | VTuple l => Some l
  | VStr s => Some (chars s)
  | VNone | VInt _ => None
  end.

(** [len(v)] *)
Definition len (v : value) : result Z :=
  match elements v with
  | Some l => Ok (Z.of_nat (length l))
  | None => Raise (TypeError ("object of type '" ++ type_name v ++ "' has no len()")%string)
  end.

(** [range(n)] of Python 2 with an integer bound: the list [0, ..., n-1],
    empty when [n <= 0]. *)
Definition range (n : Z) : list Z := map Z.of_nat (seq 0 (Z.to_nat n)).

(** [range(v)] on a value. *)
Definition range_value (v : value) : result (list value) :=
  match v with
  | VInt n => Ok (map VInt (range n))
  | _ => Raise (TypeError ("range() integer end argument expected, got "
                             ++ type_name v ++ ".")%string)
  end.

(** Decimal literals accepted by [int(s)]: optional surrounding white space,
    an optional sign, one or more digits. *)
Definition is_space (c : ascii) : bool :=
  let n := nat_of_ascii c in
  (Nat.eqb n 32 || (Nat.leb 9 n && Nat.leb n 13))%bool.

Definition digit (c : ascii) : option Z :=
  let n := nat_of_ascii c in
  if (Nat.leb 48 n && Nat.leb n 57)%bool then Some (Z.of_nat (n - 48)) else None.

Fixpoint digits (acc : Z) (l : list ascii) : option Z :=
  match l with
  | [] => Some acc
  | c :: l' =>
      match digit c with
      | Some d => digits (10 * acc + d) l'
      | None => None
      end
  end.

Fixpoint lstrip (l : list ascii) : list ascii :=
  match l with
  | c :: l' => if is_space c then lstrip l' else l
  | [] => []
  end.

Definition strip (l : list ascii) : list ascii := rev (lstrip (rev (lstrip l))).

Definition unsigned_literal (l : list ascii) : option Z :=
  match l with
  | [] => None
  | _ => digits 0 l
  end.

Definition int_literal (s : string) : option Z :=
  match strip (list_ascii_of_string s) with
  | "-"%char :: l => option_map Z.opp (unsigned_literal l)
  | "+"%char :: l => unsigned_literal l
  | l => unsigned_literal l
  end.

(** [int(v)] *)
Definition int (v : value) : result Z :=
  match v with
  | VInt z => Ok z
  | VStr s =>
      match int_literal s with
      | Some z => Ok z
      | None => Raise (ValueError ("invalid literal for int() with base 10: '" ++ s ++ "'")%string)
      end
  | _ => Raise (TypeError ("int() argument must be a string or a number, not '"
                             ++ type_name v ++ "'")%string)
  end.

(** [iter(v)], consumed into a list. *)
Definition iterate (v : value) : result (list value) :=
  match elements v with
  | Some l => Ok l
  | None => Raise (TypeError ("'" ++ type_name v ++ "' object is not iterable")%string)
  end.

(** ** Numbers *)

(** A float: the exact rational it approximates, or the infinity that numpy
    returns (with a warning, not an exception) for a division by zero. *)
Inductive pyfloat : Type :=
  | Real (q : Q)
  | Inf.

(** [1/d] under [from __future__ import division], [d] a Python object. *)
Definition truediv_1 (d : value) : result pyfloat :=
  match d with
  | VInt z =>
      if z =? 0 then Raise (ZeroDivisionError "division by zero")
      else Ok (Real (1 / inject_Z z))
  | _ => Raise (TypeError ("unsupported operand type(s) for /: 'int' and '"
                             ++ type_name d ++ "'")%string)
  end.

(** [[x] * n], [n] a Python object: [n] copies, none when [n <= 0]. *)
Definition repeat_list {A : Type} (x : A) (n : value) : result (list A) :=
  match n with
  | VInt z => Ok (repeat x (Z.to_nat z))
  | _ => Raise (TypeError ("can't multiply sequence by non-int of type '"
                             ++ type_name n ++ "'")%string)
  end.

(** [np.prod] of a list of Python integers. Its value is a numpy scalar; the
    product of the empty list (a [word_length] that is not positive) is
    [1.0], taken here as the count 1, as the numpy of the module's time
    repeats a list by it. The fixed width of numpy integers is left out: a
    product of [2^63] or more would be the length of a list that no memory
    holds. *)
Definition np_prod (l : list Z) : Z := fold_right Z.mul 1 l.

(** [1/z], [z] a numpy scalar: numpy does not raise on a zero divisor. *)
Definition np_truediv_1 (z : Z) : pyfloat :=
  if z =? 0 then Inf else Real (1 / inject_Z z).

(** [np.ones(k)] *)
Definition np_ones (k : Z) : list pyfloat := repeat (Real 1) (Z.to_nat k).

(** [itertools.product] over the pools: the tuples of the Cartesian product,
    the rightmost position advancing fastest. *)
Fixpoint product {A : Type} (pools : list (list A)) : list (list A) :=
  match pools with
  | [] => [[]]
  | pool :: pools' =>
      flat_map (fun x => map (cons x) (product pools')) pool
  end.

(** ** Distribution objects and the store *)

Inductive klass : Type :=
  | Distribution
  | JointDistribution.

Inductive base : Type :=
  | linear
  | logarithmic (b : Q).

(** Modelled from the spec: the state of a distribution object, as section 3
    and section 6 of the specification give it (the classes are defined in
    [dit.npdist] and [dit.npjdist]): its concrete class, the sequence of
    outcomes, the parallel probability-mass vector and the declared base. *)
Record distribution : Type := mkDist {
  class_of : klass;
  pmf : list pyfloat;
  outcomes : list value;
  get_base : base
}.

Definition loc : Type := nat.

(** The store: the distribution objects allocated so far; a reference is an
    index. *)
Abbreviation heap := (list distribution).

(** Computations that read and write the store and may raise. The store
    survives an exception. *)
Definition M (A : Type) : Type := heap → heap * result A.

Definition ret {A : Type} (a : A) : M A := fun h => (h, Ok a).

Definition raise {A : Type} (e : exn) : M A := fun h => (h, Raise e).

Definition bind {A B : Type} (c : M A) (k : A → M B) : M B :=
  fun h =>
    match c h with
    | (h', Ok a) => k a h'
    | (h', Raise e) => (h', Raise e)
    end.

Definition lift {A : Type} (r : result A) : M A := fun h => (h, r).

Notation "'do' x '<-' c ';' k" := (bind c (fun x => k))
  (at level 10, x pattern, c at level 100, k at level 200).

(** Attribute access on the object behind a reference. *)
Definition deref (l : loc) : M distribution :=
  fun h =>
    match h !! l with
    | Some d => (h, Ok d)
    | None => (h, Raise (AttributeError "object is not a distribution"))
    end.

(** [len(d)]: the number of outcomes. *)
Definition len_dist (l : loc) : M Z :=
  do d <- deref l; ret (Z.of_nat (length (outcomes d))).

(** The object [d] with its pmf replaced. *)
Definition with_pmf (d : distribution) (v : list pyfloat) : distribution :=
  mkDist (class_of d) v (outcomes d) (get_base d).

(** [d.pmf = v]: assignment in place, the object keeps its reference. *)
Definition set_pmf (l : loc) (v : list pyfloat) : M unit :=
  do d <- deref l;
  fun h => (<[l := with_pmf d v]> h, Ok tt).

(** Modelled from the spec: the invariant of a distribution object (section
    3 of the specification): as many probabilities as outcomes, and no
    outcome twice. *)
Definition well_formed (d : distribution) : Prop :=
  length (pmf d) = length (outcomes d) ∧ NoDup (outcomes d).

(** Modelled from the spec: the checks of the constructor of the
    distribution classes (absent from the sources): pmf and outcomes of equal
    length, outcomes unique. The specification leaves these checks to the
    classes: it names the two as examples and calls a repeated outcome
    typically a failure. What the properties of the operations take from
    this definition is that a pmf as long as the outcomes, the outcomes
    distinct, is accepted, and that an accepted object is well formed. *)
Definition validate (p : list pyfloat) (o : list value) : result unit :=
  if negb (Nat.eqb (length p) (length o)) then Raise (InvalidDistribution LengthMismatch)
  else if has_duplicates o then Raise (InvalidDistribution DuplicateOutcomes)
  else Ok tt.

(** Modelled from the spec: [cls(pmf, outcomes, base=b)], the constructor of
    the distribution classes (absent from the sources). It reads the outcomes
    off the sequence it is given, validates, and allocates a fresh object
    that holds outcomes and pmf in the order given. *)
Definition new (cls : klass) (p : list pyfloat) (o : value) (b : base) : M loc :=
  do os <- lift (iterate o);
  do _ <- lift (validate p os);
  fun h => (h ++ [mkDist cls p os b], Ok (length h)).

(** [v[0]] *)
Definition getitem_0 (v : value) : result value :=
  match elements v with
  | Some (x :: _) => Ok x
  | Some [] => Raise (IndexError "index out of range")
  | None => Raise (TypeError ("'" ++ type_name v
                                ++ "' object has no attribute '__getitem__'")%string)
  end.

(** ** The operations of [distconst.py] *)

Definition uniform_distribution (n : value) : M loc :=
  do sized <-
    lift (try_except_TypeError
            (let! k := len n in Ok (VInt k, n))
            (let! r := range_value n in Ok (n, VList r)));
  let '(nOutcomes, outcomes) := sized in
  do p <- lift (truediv_1 nOutcomes);
  do pmf <- lift (repeat_list p nOutcomes);
  new Distribution pmf outcomes linear.

(** The first [try] statement of [uniform_joint_distribution]: the alphabet
    of each position. *)
Definition resolve_alphabet (word_length : Z) (alphabet_size : value) : result (list value) :=
  try_except_TypeError_else (int alphabet_size)
    (let alphabet := alphabet_size in
     let! k := len alphabet in
     if k =? 1 then
       let! a := getitem_0 alphabet in
       Ok (repeat a (Z.to_nat word_length))
     else if negb (k =? word_length) then
       Raise (TypeError "word_length does not match number of rvs.")
     else iterate alphabet)
    (fun _ =>
       let! r := range_value alphabet_size in
       Ok (repeat (VList r) (Z.to_nat word_length))).

Definition uniform_joint_distribution (word_length : Z) (alphabet_size : value) : M loc :=
  do alphabet <- lift (resolve_alphabet word_length alphabet_size);
  do nZ <-
    lift (try_except_TypeError
            (let! sizes := map_result len alphabet in Ok (np_prod sizes))
            (Raise (TypeError "alphabet_size must be an int or list of lists.")));
  let pmf := repeat (np_truediv_1 nZ) (Z.to_nat nZ) in
  do pools <- lift (map_result iterate alphabet);
  let outcomes := VTuple (map VTuple (product pools)) in
  new JointDistribution pmf outcomes linear.

Definition modify_outcomes (dist : loc) (ctor : value → value) : M loc :=
  do d <- deref dist;
  let outcomes' := VList (map ctor (outcomes d)) in
  new (class_of d) (pmf d) outcomes' (get_base d).

Section RandomSampler.

(** A pseudo-random source: the type of its states, and its Dirichlet draw,
    which takes the concentration parameters and returns the sampled vector
    together with the state the source is left in. *)
Variable G : Type.
Variable dirichlet : G → list pyfloat → list pyfloat * G.

(** [dit.math.prng], the process-wide source, as found at call time. *)
Variable default_prng : G.

(** [if prng is None: prng = dit.math.prng] *)
Definition source (prng : option G) : G :=
  match prng with None => default_prng | Some g => g end.

(** Besides the distribution, the model hands back the state in which the
    call leaves the source it drew from. *)
Definition random_distribution (n : value) (prng : option G) : M (loc * G) :=
  let prng := source prng in
  do d <- uniform_distribution n;
  do k <- len_dist d;
  let '(pmf, prng') := dirichlet prng (np_ones k) in
  do _ <- set_pmf d pmf;
  ret (d, prng').

Definition random_joint_distribution
    (word_length : Z) (alphabet_size : value) (prng : option G) : M (loc * G) :=
  let prng := source prng in
  do d <- uniform_joint_distribution word_length alphabet_size;
  do k <- len_dist d;
  let '(pmf, prng') := dirichlet prng (np_ones k) in
  do _ <- set_pmf d pmf;
  ret (d, prng').

End RandomSampler.

(** ** Vocabulary of the properties *)

(** The sum of a probability vector, when all its entries are finite. *)
Fixpoint total (p : list pyfloat) : option Q :=
  match p with
  | [] => Some 0%Q
  | Real q :: p' => option_map (Qplus q) (total p')
  | Inf :: _ => None
  end.

(** The lexicographic order on tuples of integers of one length. *)
Inductive lex_lt : list Z → list Z → Prop :=
  | lex_lt_head (x y : Z) (s t : list Z) : x < y → lex_lt (x :: s) (y :: t)
  | lex_lt_tail (x : Z) (s t : list Z) : lex_lt s t → lex_lt (x :: s) (x :: t).

(** The alphabets of a word: each one a sized value with its elements. *)
Definition pools_of (alphabet : list value) (pools : list (list value)) : Prop :=
  Forall2 (fun a pool => elements a = Some pool) alphabet pools.

(** A computation that either appends one object to the store and returns
    the reference to it, or raises and leaves the store as it found it. *)
Definition allocates (c : M loc) : Prop :=
  ∀ h : heap,
    (∃ d : distribution, c h = (h ++ [d], Ok (length h)))
    ∨ (∃ e : exn, c h = (h, Raise e)).

(** What a sampler does with the skeleton that a builder makes: when the
    builder returns a fresh object, the sampler returns the same reference,
    to that object with its pmf replaced by the vector drawn from [g] with
    as many unit concentration parameters as the object has outcomes; when
    the builder raises, the sampler raises the same. *)
Definition redraws {G : Type} (dirichlet : G → list pyfloat → list pyfloat * G)
    (g : G) (skeleton : M loc) (sampler : M (loc * G)) : Prop :=
  ∀ h : heap,
    match skeleton h with
    | (h1, Ok l) =>
        ∃ d : distribution,
          h1 = h ++ [d] ∧ l = length h
          ∧ let draw := dirichlet g (repeat (Real 1) (length (outcomes d))) in
            sampler h = (h ++ [with_pmf d (fst draw)], Ok (l, snd draw))
            ∧ outcomes (with_pmf d (fst draw)) = outcomes d
            ∧ pmf (with_pmf d (fst draw)) = fst draw
    | (h1, Raise e) => sampler h = (h1, Raise e)
    end.

(** The transform of the docstring: the symbols of a pair, joined. *)
Definition join_pair (x : value) : value :=
  match x with
  | VTuple [VStr a; VStr b] => VStr (a ++ b)
  | _ => x
  end.

(** The transform of the first docstring example, [lambda x: x + 1], on the
    integers, the only outcomes it is applied to below (on any other outcome
    the lambda raises a [TypeError]). *)
Definition incr (x : value) : value :=
  match x with
  | VInt z => VInt (z + 1)
  | _ => x
  end.

(** A sampler that leaves every object of the store as it found it: when it
    returns, its reference is new and the store has one object more; when it
    raises, the store is the same. *)
Definition keeps_store {G : Type} (sampler : M (loc * G)) : Prop :=
  ∀ h : heap,
    ∃ (h' : heap) (r : result (loc * G)),
      sampler h = (h', r)
      ∧ (∀ (l : loc) (d : distribution), h !! l = Some d → h' !! l = Some d)
      ∧ match r with
        | Ok (l, _) => h !! l = None ∧ length h' = S (length h)
        | Raise _ => h' = h
        end.

(** * Properties *)

(** ** Equality and duplicates *)

Lemma list_eqb_eq {A : Type} (eqb : A → A → bool) (l : list A) :
  Forall (fun x => ∀ y, eqb x y = true ↔ x = y) l →
  ∀ m, list_eqb eqb l m = true ↔ l = m.
Proof.
  induction 1 as [ | x l Hx _ IH ]; intros [ | y m ]; simpl;
    try (split; [ discriminate | ]; discriminate).
  - tauto.
  - rewrite andb_true_iff, Hx, IH. split.
    + intros [-> ->]. reflexivity.
    + intros [= -> ->]. tauto.
Qed.

Lemma value_eqb_eq (a b : value) : value_eqb a b = true ↔ a = b.
Proof.
  revert b. induction a as [ | x | s | l IH | l IH ] using value_nested_ind;
    intros [ | y | t | m | m ]; simpl;
    try (split; [ discriminate | ]; discriminate).
  - tauto.
  - rewrite Z.eqb_eq. split; [ intros -> | intros [= ->] ]; reflexivity.
  - rewrite String.eqb_eq. split; [ intros -> | intros [= ->] ]; reflexivity.
  - rewrite (list_eqb_eq _ _ IH). split; [ intros -> | intros [= ->] ]; reflexivity.
  - rewrite (list_eqb_eq _ _ IH). split; [ intros -> | intros [= ->] ]; reflexivity.
Qed.

Lemma contains_In (x : value) (l : list value) : contains x l = true ↔ In x l.
Proof.
  induction l as [ | y l IH ]; simpl.
  - split; [ discriminate | tauto ].
  - rewrite orb_true_iff, value_eqb_eq, IH. intuition congruence.
Qed.

Lemma has_duplicates_NoDup (l : list value) : has_duplicates l = false ↔ NoDup l.
Proof.
  induction l as [ | x l IH ]; simpl.
  - split; [ constructor | reflexivity ].
  - rewrite orb_false_iff, IH. split.
    + intros [Hx Hl]. constructor; [ | exact Hl ].
      rewrite list_elem_of_In, <- contains_In, Hx. discriminate.
    + intros Hnd. inversion Hnd as [ | ? ? Hx Hl ]; subst. split; [ | exact Hl ].
      destruct (contains x l) eqn:E; [ | reflexivity ].
      exfalso. apply Hx. rewrite list_elem_of_In, <- contains_In. exact E.
Qed.

(** ** The constructor *)

Lemma validate_ok (p : list pyfloat) (o : list value) :
  length p = length o → NoDup o → validate p o = Ok tt.
Proof.
  intros Hlen Hnd. unfold validate.
  rewrite Hlen, Nat.eqb_refl. simpl.
  apply has_duplicates_NoDup in Hnd. rewrite Hnd. reflexivity.
Qed.

Lemma validate_inv (p : list pyfloat) (o : list value) :
  validate p o = Ok tt → length p = length o ∧ NoDup o.
Proof.
  unfold validate. destruct (Nat.eqb (length p) (length o)) eqn:El; simpl; [ | discriminate ].
  destruct (has_duplicates o) eqn:Ed; [ discriminate | ].
  intros _. split; [ apply Nat.eqb_eq, El | apply has_duplicates_NoDup, Ed ].
Qed.

(** A successful construction appends one object to the store and returns
    the reference to it. *)
Lemma new_ok (cls : klass) (p : list pyfloat) (o : value) (os : list value)
    (b : base) (h : heap) :
  elements o = Some os → length p = length os → NoDup os →
  new cls p o b h = (h ++ [mkDist cls p os b], Ok (length h)).
Proof.
  intros Ho Hlen Hnd. unfold new, bind, lift, iterate.
  rewrite Ho, (validate_ok _ _ Hlen Hnd). reflexivity.
Qed.

(** A failed construction leaves the store as it was. *)
Lemma new_duplicates (cls : klass) (p : list pyfloat) (o : value) (os : list value)
    (b : base) (h : heap) :
  elements o = Some os → length p = length os → ¬ NoDup os →
  new cls p o b h = (h, Raise (InvalidDistribution DuplicateOutcomes)).
Proof.
  intros Ho Hlen Hnd. unfold new, bind, lift, iterate, validate.
  rewrite Ho, Hlen, Nat.eqb_refl. simpl.
  destruct (has_duplicates os) eqn:E; [ reflexivity | ].
  exfalso. apply Hnd, has_duplicates_NoDup, E.
Qed.

(** The store only grows at its end: whatever [new] does, the objects that
    were there are still there. *)
Lemma new_frame (cls : klass) (p : list pyfloat) (o : value) (b : base)
    (h h' : heap) (r : result loc) :
  new cls p o b h = (h', r) →
  ∀ l d, h !! l = Some d → h' !! l = Some d.
Proof.
  unfold new, bind, lift. intros Hnew l d Hl.
  destruct (iterate o) as [ os | e ]; [ | injection Hnew as <- _; exact Hl ].
  destruct (validate p os) as [ [] | e ]; injection Hnew as <- _; [ | exact Hl ].
  apply lookup_app_l_Some, Hl.
Qed.

(** ** Ranges and sums *)

Lemma length_range (n : Z) : length (range n) = Z.to_nat n.
Proof. unfold range. rewrite length_map, length_seq. reflexivity. Qed.

Lemma lookup_range (n : Z) (i : nat) :
  (i < Z.to_nat n)%nat → range n !! i = Some (Z.of_nat i).
Proof.
  intros Hi. unfold range. rewrite list_lookup_fmap.
  rewrite lookup_seq_lt by exact Hi. reflexivity.
Qed.

Lemma elem_of_range (n i : Z) : i ∈ range n ↔ 0 ≤ i < n.
Proof.
  unfold range. rewrite list_elem_of_fmap. split.
  - intros (k & -> & Hk). apply elem_of_seq in Hk. lia.
  - intros Hi. exists (Z.to_nat i). split; [ lia | ]. apply elem_of_seq. lia.
Qed.

Lemma NoDup_range (n : Z) : NoDup (range n).
Proof.
  unfold range. apply NoDup_fmap_2; [ | apply NoDup_seq ].
  intros a b Hab. lia.
Qed.

Lemma NoDup_VInt (l : list Z) : NoDup l → NoDup (map VInt l).
Proof. apply NoDup_fmap_2. intros a b [= ->]. reflexivity. Qed.

Lemma total_repeat (q : Q) (k : nat) :
  ∃ s, total (repeat (Real q) k) = Some s ∧ (s == inject_Z (Z.of_nat k) * q)%Q.
Proof.
  induction k as [ | k (s & Hs & Heq) ].
  - exists 0%Q. split; [ reflexivity | ]. simpl. ring.
  - exists (q + s)%Q. split; [ simpl; rewrite Hs; reflexivity | ].
    rewrite Heq, Nat2Z.inj_succ. unfold Z.succ. rewrite inject_Z_plus. ring.
Qed.

Lemma total_uniform (n : positive) :
  ∃ s, total (repeat (Real (1 # n)) (Pos.to_nat n)) = Some s ∧ (s == 1)%Q.
Proof.
  destruct (total_repeat (1 # n) (Pos.to_nat n)) as (s & Hs & Heq).
  exists s. split; [ exact Hs | ]. rewrite Heq, positive_nat_Z.
  unfold Qeq, inject_Z, Qmult. simpl. lia.
Qed.

(** [1/z] for a positive [z], in lowest terms. *)
Lemma truediv_1_pos (z : Z) : 0 < z → truediv_1 (VInt z) = Ok (Real (1 # Z.to_pos z)).
Proof. destruct z as [ | p | p ]; try lia. intros _. reflexivity. Qed.

Lemma np_truediv_1_pos (z : Z) : 0 < z → np_truediv_1 z = Real (1 # Z.to_pos z).
Proof. destruct z as [ | p | p ]; try lia. intros _. reflexivity. Qed.

(** ** [uniform_distribution] *)

(** On a sized value the [try] suite succeeds: the outcomes are the value
    itself and their number is its length. *)
Lemma uniform_distribution_sized (n : value) (xs : list value) (h : heap) :
  elements n = Some xs →
  uniform_distribution n h =
    match truediv_1 (VInt (Z.of_nat (length xs))) with
    | Ok p => new Distribution (repeat p (length xs)) n linear h
    | Raise e => (h, Raise e)
    end.
Proof.
  intros Hn. unfold uniform_distribution, len, bind, lift. rewrite Hn. simpl.
  rewrite Nat2Z.id. reflexivity.
Qed.

(** On an integer [len] raises a [TypeError] and the handler runs: the
    outcomes are [range(n)] and their number is [n]. *)
Lemma uniform_distribution_int (z : Z) (h : heap) :
  uniform_distribution (VInt z) h =
    match truediv_1 (VInt z) with
    | Ok p => new Distribution (repeat p (Z.to_nat z)) (VList (map VInt (range z))) linear h
    | Raise e => (h, Raise e)
    end.
Proof.
  unfold uniform_distribution, bind, lift. simpl.
  destruct (z =? 0); reflexivity.
Qed.

(** On [None] the handler runs and [range] raises. *)
Lemma uniform_distribution_None (h : heap) :
  uniform_distribution VNone h =
    (h, Raise (TypeError "range() integer end argument expected, got NoneType.")).
Proof. reflexivity. Qed.

(** [new] raises neither [ZeroDivisionError] nor anything but what iteration
    and validation raise. *)
Lemma new_not_ZeroDivisionError (cls : klass) (p : list pyfloat) (o : value)
    (b : base) (h h' : heap) (msg : string) :
  new cls p o b h ≠ (h', Raise (ZeroDivisionError msg)).
Proof.
  unfold new, bind, lift, iterate, validate.
  destruct (elements o) as [ os | ]; [ | discriminate ].
  destruct (negb _); [ discriminate | ].
  destruct (has_duplicates os); discriminate.
Qed.

(** C1. For every integer [n > 0], [uniform_distribution(n)] returns a fresh
    [Distribution] with exactly [n] outcomes, the integers [0], ..., [n-1] in
    this order, each with probability [1/n], in linear base; the
    probabilities sum to 1 (here exactly, the entries being the rationals
    that the floats approximate). *)
Theorem uniform_distribution_count (n : Z) (h : heap) :
  0 < n →
  ∃ d : distribution,
    uniform_distribution (VInt n) h = (h ++ [d], Ok (length h))
    ∧ class_of d = Distribution
    ∧ outcomes d = map VInt (range n)
    ∧ length (outcomes d) = Z.to_nat n
    ∧ (∀ i : nat, (i < Z.to_nat n)%nat → outcomes d !! i = Some (VInt (Z.of_nat i)))
    ∧ pmf d = repeat (Real (1 # Z.to_pos n)) (Z.to_nat n)
    ∧ get_base d = linear
    ∧ ∃ s : Q, total (pmf d) = Some s ∧ (s == 1)%Q.
Proof.
  intros Hn.
  exists (mkDist Distribution (repeat (Real (1 # Z.to_pos n)) (Z.to_nat n))
            (map VInt (range n)) linear).
  simpl. repeat split.
  - rewrite uniform_distribution_int, (truediv_1_pos _ Hn).
    apply new_ok.
    + reflexivity.
    + rewrite repeat_length, length_map, length_range. reflexivity.
    + apply NoDup_VInt, NoDup_range.
  - rewrite length_map, length_range. reflexivity.
  - intros i Hi. rewrite list_lookup_fmap, (lookup_range _ _ Hi). reflexivity.
  - destruct n as [ | p | p ]; try lia. simpl. apply total_uniform.
Qed.

Lemma uniform_distribution_count_witness :
  ∃ d : distribution,
    uniform_distribution (VInt 3) [] = ([] ++ [d], Ok 0%nat)
    ∧ class_of d = Distribution
    ∧ outcomes d = map VInt (range 3)
    ∧ length (outcomes d) = Z.to_nat 3
    ∧ (∀ i : nat, (i < Z.to_nat 3)%nat → outcomes d !! i = Some (VInt (Z.of_nat i)))
    ∧ pmf d = repeat (Real (1 # Z.to_pos 3)) (Z.to_nat 3)
    ∧ get_base d = linear
    ∧ ∃ s : Q, total (pmf d) = Some s ∧ (s == 1)%Q.
Proof. apply (uniform_distribution_count 3 []). lia. Defined.

(** The [try] suite on a non-empty sized value, with the division done. *)
Lemma uniform_distribution_nonempty (n : value) (xs : list value) (h : heap) :
  elements n = Some xs → xs ≠ [] →
  uniform_distribution n h =
    new Distribution (repeat (Real (1 # Pos.of_nat (length xs))) (length xs)) n linear h.
Proof.
  intros Hn Hne. rewrite (uniform_distribution_sized _ _ _ Hn).
  assert (Hlen : 0 < Z.of_nat (length xs)) by (destruct xs; [ congruence | simpl; lia ]).
  rewrite (truediv_1_pos _ Hlen).
  replace (Z.to_pos (Z.of_nat (length xs))) with (Pos.of_nat (length xs))
    by (destruct xs; [ congruence | simpl; lia ]).
  reflexivity.
Qed.

(** C2. For every non-empty sized sequence [S], [uniform_distribution(S)]
    is the construction of a [Distribution] from the elements of [S], as they
    come, and [len(S)] copies of [1/len(S)], in linear base; with the
    pairwise distinct elements that the outcomes of a distribution are, it
    returns a fresh [Distribution] whose outcomes are the elements of [S] in
    their order, each with probability [1/len(S)]. The sized reading comes
    first: whenever the call returns, the outcomes are the elements of the
    argument if it has a length, and the integers below it only if it has
    none; an argument without a length is handed to [range], and if it is no
    integer either, the [TypeError] that reaches the caller is the one of
    [range], the second attempt. *)
Theorem uniform_distribution_sequence :
  (∀ (S : value) (xs : list value) (h : heap),
     elements S = Some xs → xs ≠ [] →
     uniform_distribution S h =
       new Distribution (repeat (Real (1 # Pos.of_nat (length xs))) (length xs))
         S linear h)
  ∧ (∀ (S : value) (xs : list value) (h : heap),
       elements S = Some xs → xs ≠ [] → NoDup xs →
       ∃ d : distribution,
         uniform_distribution S h = (h ++ [d], Ok (length h))
         ∧ class_of d = Distribution
         ∧ outcomes d = xs
         ∧ pmf d = repeat (Real (1 # Pos.of_nat (length xs))) (length xs)
         ∧ get_base d = linear)
  ∧ (∀ (n : value) (h h' : heap) (l : loc),
       uniform_distribution n h = (h', Ok l) →
       ∃ d : distribution,
         h' !! l = Some d
         ∧ match elements n with
           | Some xs => outcomes d = xs
           | None => ∃ z : Z, n = VInt z ∧ outcomes d = map VInt (range z)
           end)
  ∧ (∀ (z : Z) (h : heap),
       uniform_distribution (VInt z) h =
         match truediv_1 (VInt z) with
         | Ok p =>
             new Distribution (repeat p (Z.to_nat z)) (VList (map VInt (range z)))
               linear h
         | Raise e => (h, Raise e)
         end)
  ∧ (∀ (n : value) (h : heap),
       elements n = None → (∀ z : Z, n ≠ VInt z) →
       uniform_distribution n h =
         (h, Raise (TypeError ("range() integer end argument expected, got "
                                 ++ type_name n ++ ".")%string))).
Proof.
  split_and!.
  - intros S xs h HS Hne. apply (uniform_distribution_nonempty _ _ _ HS Hne).
  - intros S xs h HS Hne Hnd.
    exists (mkDist Distribution
              (repeat (Real (1 # Pos.of_nat (length xs))) (length xs)) xs linear).
    simpl. split_and!; try reflexivity.
    rewrite (uniform_distribution_nonempty _ _ _ HS Hne).
    apply new_ok; [ exact HS | apply repeat_length | exact Hnd ].
  - intros n h h' l Hrun.
    assert (Hnew : ∀ p o os, elements o = Some os →
              new Distribution p o linear h = (h', Ok l) →
              h' !! l = Some (mkDist Distribution p os linear)).
    { intros p o os Ho. unfold new, bind, lift, iterate. rewrite Ho.
      destruct (validate p os) as [ [] | e ]; simpl; [ | intros [=] ].
      intros [= <- <-]. apply list_lookup_middle. reflexivity. }
    destruct (elements n) as [ xs | ] eqn:En.
    + rewrite (uniform_distribution_sized _ _ _ En) in Hrun.
      destruct (truediv_1 _) as [ p | e ]; [ | discriminate ].
      eexists. split; [ apply (Hnew _ _ _ En Hrun) | reflexivity ].
    + destruct n as [ | z | s | xs | xs ]; try discriminate.
      rewrite uniform_distribution_int in Hrun.
      destruct (truediv_1 _) as [ p | e ]; [ | discriminate ].
      eexists. split; [ apply (Hnew _ (VList (map VInt (range z))) _ eq_refl Hrun) | ].
      exists z. split; reflexivity.
  - intros z h. apply uniform_distribution_int.
  - intros n h En Hint. destruct n as [ | z | s | xs | xs ]; try discriminate En.
    + reflexivity.
    + exfalso. apply (Hint z). reflexivity.
Qed.

Lemma uniform_distribution_sequence_witness :
  ∃ d : distribution,
    uniform_distribution (VList [VStr "H"; VStr "T"]) [] = ([] ++ [d], Ok 0%nat)
    ∧ class_of d = Distribution
    ∧ outcomes d = [VStr "H"; VStr "T"]
    ∧ pmf d = repeat (Real (1 # 2)) 2
    ∧ get_base d = linear.
Proof.
  apply (proj1 (proj2 uniform_distribution_sequence) (VList [VStr "H"; VStr "T"])
           [VStr "H"; VStr "T"] []).
  - reflexivity.
  - discriminate.
  - apply has_duplicates_NoDup. reflexivity.
Defined.

(** C9. On the integer [0] and on an empty sequence [uniform_distribution]
    raises [ZeroDivisionError]: [1/nOutcomes] is evaluated before the
    constructor is reached, so the store is as before. These are the only
    arguments on which it does: for an integer [n > 0] or a non-empty
    sequence the division succeeds. *)
Theorem uniform_distribution_zero :
  (∀ h : heap,
     uniform_distribution (VInt 0) h = (h, Raise (ZeroDivisionError "division by zero")))
  ∧ (∀ (S : value) (h : heap),
       elements S = Some [] →
       uniform_distribution S h = (h, Raise (ZeroDivisionError "division by zero")))
  ∧ (∀ (n : value) (h h' : heap) (msg : string),
       uniform_distribution n h = (h', Raise (ZeroDivisionError msg)) →
       n = VInt 0 ∨ elements n = Some []).
Proof.
  split; [ | split ].
  - intros h. rewrite uniform_distribution_int. reflexivity.
  - intros S h HS. rewrite (uniform_distribution_sized _ _ _ HS). reflexivity.
  - intros n h h' msg Hrun.
    destruct (elements n) as [ xs | ] eqn:En.
    + right. rewrite (uniform_distribution_sized _ _ _ En) in Hrun.
      destruct xs as [ | x xs ]; [ reflexivity | ].
      exfalso. revert Hrun. rewrite truediv_1_pos by (simpl; lia).
      apply new_not_ZeroDivisionError.
    + destruct n as [ | z | s | xs | xs ]; try discriminate.
      left. rewrite uniform_distribution_int in Hrun.
      destruct (Z.eq_dec z 0) as [ -> | Hz ]; [ reflexivity | ].
      exfalso. revert Hrun. unfold truediv_1.
      destruct (Z.eqb_spec z 0) as [ | _ ]; [ contradiction | ].
      apply new_not_ZeroDivisionError.
Qed.

Lemma uniform_distribution_zero_witness :
  uniform_distribution (VTuple []) [] = ([], Raise (ZeroDivisionError "division by zero"))
  ∧ (VTuple [] = VInt 0 ∨ elements (VTuple []) = Some []).
Proof.
  split.
  - apply (proj1 (proj2 uniform_distribution_zero) (VTuple []) []). reflexivity.
  - apply (proj2 (proj2 uniform_distribution_zero) (VTuple []) [] [] "division by zero").
    apply (proj1 (proj2 uniform_distribution_zero) (VTuple []) []). reflexivity.
Defined.

(** ** The Cartesian product *)

Section Product.
Context {A : Type}.
Implicit Types (pool : list A) (pools : list (list A)) (t : list A).

Lemma product_cons pool pools :
  product (pool :: pools) = flat_map (fun x => map (cons x) (product pools)) pool.
Proof. reflexivity. Qed.

Lemma length_product pools :
  length (product pools) = fold_right Nat.mul 1%nat (map length pools).
Proof.
  induction pools as [ | pool pools IH ]; [ reflexivity | ].
  rewrite product_cons. simpl. rewrite <- IH. clear IH.
  induction pool as [ | x pool IHp ]; [ reflexivity | ].
  simpl. rewrite length_app, length_map, IHp. reflexivity.
Qed.

(** A tuple is in the product exactly when it picks, position by position,
    an element of the pool at that position. *)
Lemma elem_of_product t pools :
  t ∈ product pools ↔ Forall2 (fun x pool => x ∈ pool) t pools.
Proof.
  revert t. induction pools as [ | pool pools IH ]; intros t.
  - simpl. rewrite list_elem_of_singleton. split.
    + intros ->. constructor.
    + intros H. inversion H. reflexivity.
  - rewrite product_cons, list_elem_of_In, in_flat_map. split.
    + intros (x & Hx & Ht). apply in_map_iff in Ht as (s & <- & Hs).
      constructor; [ apply list_elem_of_In, Hx | apply IH, list_elem_of_In, Hs ].
    + intros H. inversion H as [ | x pool' s pools' Hx Hs ]; subst.
      exists x. split; [ apply list_elem_of_In, Hx | ].
      apply in_map, list_elem_of_In, IH, Hs.
Qed.

(** Pools without repetition give a product without repetition. *)
Lemma NoDup_product pools : Forall NoDup pools → NoDup (product pools).
Proof.
  induction 1 as [ | pool pools Hpool _ IH ].
  - simpl. apply NoDup_singleton.
  - rewrite product_cons. induction Hpool as [ | x pool Hx _ IHp ]; simpl.
    + constructor.
    + apply NoDup_app. split; [ | split ].
      * apply NoDup_fmap_2; [ | exact IH ]. intros s t [= ->]. reflexivity.
      * intros t Ht Ht'.
        apply list_elem_of_fmap in Ht as (s & -> & _).
        apply list_elem_of_In, in_flat_map in Ht' as (y & Hy & Hs).
        apply in_map_iff in Hs as (s' & [= -> ->] & _).
        apply Hx, list_elem_of_In, Hy.
      * exact IHp.
Qed.

Lemma product_map {B : Type} (f : A → B) pools :
  product (map (map f) pools) = map (map f) (product pools).
Proof.
  induction pools as [ | pool pools IH ]; [ reflexivity | ].
  simpl. rewrite IH. clear IH.
  induction pool as [ | x pool IHp ]; [ reflexivity | ].
  simpl. rewrite IHp, map_app, !map_map. reflexivity.
Qed.

Lemma length_product_repeat pool (n : nat) :
  length (product (repeat pool n)) = (length pool ^ n)%nat.
Proof.
  rewrite length_product. induction n as [ | n IH ]; [ reflexivity | ].
  simpl. rewrite IH. reflexivity.
Qed.
End Product.

(** Increasing pools are enumerated in increasing lexicographic order. *)
Lemma product_sorted (pools : list (list Z)) :
  Forall (StronglySorted Z.lt) pools → StronglySorted lex_lt (product pools).
Proof.
  induction 1 as [ | pool pools Hpool _ IH ].
  - simpl. repeat constructor.
  - rewrite product_cons. induction Hpool as [ | x pool _ IHp Hx ]; simpl.
    + constructor.
    + apply StronglySorted_app_2.
      * intros s t Hs Ht.
        apply list_elem_of_fmap in Hs as (s' & -> & _).
        apply list_elem_of_In, in_flat_map in Ht as (y & Hy & Ht).
        apply in_map_iff in Ht as (t' & <- & _).
        apply lex_lt_head. rewrite Forall_forall in Hx.
        apply Hx, list_elem_of_In, Hy.
      * eapply StronglySorted_fmap; [ | exact IH ].
        intros s t Hst. apply lex_lt_tail, Hst.
      * exact IHp.
Qed.

Lemma range_sorted (n : Z) : StronglySorted Z.lt (range n).
Proof.
  unfold range. generalize 0%nat as a.
  induction (Z.to_nat n) as [ | k IH ]; intros a; simpl; constructor.
  - apply IH.
  - apply Forall_forall. intros y Hy.
    apply list_elem_of_fmap in Hy as (j & -> & Hj). apply elem_of_seq in Hj. lia.
Qed.

Lemma elem_of_product_repeat {A : Type} (t pool : list A) (n : nat) :
  t ∈ product (repeat pool n) ↔ length t = n ∧ Forall (fun x => x ∈ pool) t.
Proof.
  rewrite elem_of_product. revert t. induction n as [ | n IH ]; intros t; simpl.
  - split.
    + intros H. inversion H. split; [ reflexivity | constructor ].
    + intros [Hlen _]. destruct t; [ constructor | discriminate ].
  - split.
    + intros H. inversion H as [ | x pool' s pools' Hx Hs ]; subst.
      apply IH in Hs as [Hlen Hall]. split; [ simpl; lia | constructor; assumption ].
    + intros [Hlen Hall]. destruct t as [ | x s ]; [ discriminate | ].
      inversion Hall; subst. constructor; [ assumption | ].
      apply IH. split; [ simpl in Hlen; lia | assumption ].
Qed.

(** ** [uniform_joint_distribution] *)

Lemma map_result_len (alphabet : list value) (pools : list (list value)) :
  pools_of alphabet pools →
  map_result len alphabet = Ok (map (fun pool => Z.of_nat (length pool)) pools).
Proof.
  induction 1 as [ | a pool alphabet pools Ha _ IH ]; [ reflexivity | ].
  simpl. unfold len at 1. rewrite Ha. simpl. rewrite IH. reflexivity.
Qed.

Lemma map_result_iterate (alphabet : list value) (pools : list (list value)) :
  pools_of alphabet pools → map_result iterate alphabet = Ok pools.
Proof.
  induction 1 as [ | a pool alphabet pools Ha _ IH ]; [ reflexivity | ].
  simpl. unfold iterate at 1. rewrite Ha. simpl. rewrite IH. reflexivity.
Qed.

(** An alphabet without a length makes [map(len, alphabet)] raise a
    [TypeError]. *)
Lemma map_result_len_unsized (alphabet : list value) :
  Exists (fun a => elements a = None) alphabet →
  ∃ msg : string, map_result len alphabet = Raise (TypeError msg).
Proof.
  induction alphabet as [ | a alphabet IH ]; intros H; [ inversion H | ].
  simpl. unfold len at 1. destruct (elements a) as [ pool | ] eqn:Ea.
  - inversion H as [ ? ? Hn | ? ? Hex ]; subst; [ congruence | ].
    destruct (IH Hex) as (msg & ->). exists msg. reflexivity.
  - eexists. reflexivity.
Qed.

Lemma np_prod_sizes (pools : list (list value)) :
  np_prod (map (fun pool => Z.of_nat (length pool)) pools)
  = Z.of_nat (length (product pools)).
Proof.
  rewrite length_product. induction pools as [ | pool pools IH ]; [ reflexivity | ].
  simpl. rewrite IH. lia.
Qed.

(** Once the alphabets are resolved and sized, the call is one construction:
    of the product of the pools, with a pmf of as many entries. *)
Lemma uniform_joint_distribution_resolved
    (word_length : Z) (alphabet_size : value)
    (alphabet : list value) (pools : list (list value)) (h : heap) :
  resolve_alphabet word_length alphabet_size = Ok alphabet →
  pools_of alphabet pools →
  uniform_joint_distribution word_length alphabet_size h =
    new JointDistribution
      (repeat (np_truediv_1 (Z.of_nat (length (product pools))))
              (length (product pools)))
      (VTuple (map VTuple (product pools))) linear h.
Proof.
  intros Hres Hpools. unfold uniform_joint_distribution, bind, lift.
  rewrite Hres, (map_result_len _ _ Hpools), (map_result_iterate _ _ Hpools).
  simpl. rewrite np_prod_sizes, Nat2Z.id. reflexivity.
Qed.

Lemma uniform_joint_distribution_ok
    (word_length : Z) (alphabet_size : value)
    (alphabet : list value) (pools : list (list value)) (h : heap) :
  resolve_alphabet word_length alphabet_size = Ok alphabet →
  pools_of alphabet pools →
  Forall NoDup pools →
  uniform_joint_distribution word_length alphabet_size h =
    (h ++ [mkDist JointDistribution
             (repeat (np_truediv_1 (Z.of_nat (length (product pools))))
                     (length (product pools)))
             (map VTuple (product pools)) linear],
     Ok (length h)).
Proof.
  intros Hres Hpools Hnd.
  rewrite (uniform_joint_distribution_resolved _ _ _ _ _ Hres Hpools).
  apply new_ok.
  - reflexivity.
  - rewrite repeat_length, length_map. reflexivity.
  - apply NoDup_fmap_2; [ | apply NoDup_product, Hnd ].
    intros s t [= ->]. reflexivity.
Qed.

Lemma resolve_alphabet_int (word_length k : Z) :
  resolve_alphabet word_length (VInt k)
  = Ok (repeat (VList (map VInt (range k))) (Z.to_nat word_length)).
Proof. reflexivity. Qed.

Lemma pools_of_repeat (a : value) (pool : list value) (n : nat) :
  elements a = Some pool → pools_of (repeat a n) (repeat pool n).
Proof. intros Ha. induction n; simpl; constructor; assumption. Qed.

Lemma Forall_repeat {A : Type} (P : A → Prop) (x : A) (n : nat) :
  P x → Forall P (repeat x n).
Proof. intros Hx. induction n; simpl; constructor; assumption. Qed.

Lemma product_repeat_VInt (k : Z) (n : nat) :
  product (repeat (map VInt (range k)) n)
  = map (map VInt) (product (repeat (range k) n)).
Proof.
  rewrite <- product_map. f_equal.
  induction n as [ | n IH ]; simpl; [ reflexivity | rewrite IH; reflexivity ].
Qed.

Lemma length_product_range (L k : Z) :
  0 ≤ L → 0 ≤ k →
  Z.of_nat (length (product (repeat (range k) (Z.to_nat L)))) = k ^ L.
Proof.
  intros HL Hk. rewrite length_product_repeat, length_range, Nat2Z.inj_pow.
  rewrite !Z2Nat.id by assumption. reflexivity.
Qed.

(** [[1/Z] * Z] for a numpy count [Z]: no entry is made when [Z] is 0. *)
Lemma repeat_np_truediv_1 (z : Z) :
  0 ≤ z →
  repeat (np_truediv_1 z) (Z.to_nat z) = repeat (Real (1 # Z.to_pos z)) (Z.to_nat z).
Proof. destruct z as [ | p | p ]; try lia; intros _; reflexivity. Qed.

(** C3, for the alphabet sizes on which the claim holds. For every positive
    [word_length] [L] and non-negative integer [alphabet_size] [k],
    [uniform_joint_distribution(L, k)] returns a fresh [JointDistribution]
    whose outcomes are the tuples of the [L]-fold Cartesian product of
    [0], ..., [k-1]: every such tuple once, in increasing lexicographic
    order, [k^L] of them, each with probability [1/k^L], in linear base. In
    particular [uniform_joint_distribution(2, 2)] has the outcomes [(0,0)],
    [(0,1)], [(1,0)], [(1,1)], each with probability [1/4]. *)
Theorem uniform_joint_distribution_int :
  (∀ (L k : Z) (h : heap),
     0 < L → 0 ≤ k →
     ∃ (d : distribution) (ts : list (list Z)),
       uniform_joint_distribution L (VInt k) h = (h ++ [d], Ok (length h))
       ∧ class_of d = JointDistribution
       ∧ outcomes d = map (fun t => VTuple (map VInt t)) ts
       ∧ ts = product (repeat (range k) (Z.to_nat L))
       ∧ (∀ t : list Z,
            t ∈ ts ↔ Z.of_nat (length t) = L ∧ Forall (fun x => 0 ≤ x < k) t)
       ∧ NoDup ts
       ∧ StronglySorted lex_lt ts
       ∧ Z.of_nat (length ts) = k ^ L
       ∧ pmf d = repeat (Real (1 # Z.to_pos (k ^ L))) (Z.to_nat (k ^ L))
       ∧ get_base d = linear)
  ∧ uniform_joint_distribution 2 (VInt 2) [] =
      ([mkDist JointDistribution
          [Real (1 # 4); Real (1 # 4); Real (1 # 4); Real (1 # 4)]
          [VTuple [VInt 0; VInt 0]; VTuple [VInt 0; VInt 1];
           VTuple [VInt 1; VInt 0]; VTuple [VInt 1; VInt 1]]
          linear],
       Ok 0%nat).
Proof.
  split; [ | reflexivity ].
  intros L k h HL Hk.
  set (n := Z.to_nat L).
  set (ts := product (repeat (range k) n)).
  assert (Hlen : Z.of_nat (length ts) = k ^ L)
    by (apply length_product_range; lia).
  assert (Hnn : 0 ≤ k ^ L) by (apply Z.pow_nonneg; lia).
  exists (mkDist JointDistribution
            (repeat (Real (1 # Z.to_pos (k ^ L))) (Z.to_nat (k ^ L)))
            (map (fun t => VTuple (map VInt t)) ts) linear), ts.
  simpl. split_and!; try reflexivity.
  - rewrite (uniform_joint_distribution_ok L (VInt k) _
               (repeat (map VInt (range k)) n) h (resolve_alphabet_int L k)).
    + rewrite product_repeat_VInt, length_map, map_map. fold ts.
      rewrite Hlen. replace (length ts) with (Z.to_nat (k ^ L)) by lia.
      rewrite (repeat_np_truediv_1 _ Hnn). reflexivity.
    + apply pools_of_repeat. reflexivity.
    + apply Forall_repeat, NoDup_VInt, NoDup_range.
  - intros t. unfold ts. rewrite elem_of_product_repeat. subst n.
    split; intros [Hl Hall]; (split; [ lia | ]);
      (eapply Forall_impl; [ exact Hall | ]); intros x Hx; apply elem_of_range, Hx.
  - apply NoDup_product, Forall_repeat, NoDup_range.
  - apply product_sorted, Forall_repeat, range_sorted.
  - exact Hlen.
Qed.

Lemma uniform_joint_distribution_int_witness :
  ∃ (d : distribution) (ts : list (list Z)),
    uniform_joint_distribution 3 (VInt 2) [] = ([] ++ [d], Ok 0%nat)
    ∧ class_of d = JointDistribution
    ∧ outcomes d = map (fun t => VTuple (map VInt t)) ts
    ∧ ts = product (repeat (range 2) (Z.to_nat 3))
    ∧ (∀ t : list Z,
         t ∈ ts ↔ Z.of_nat (length t) = 3 ∧ Forall (fun x => 0 ≤ x < 2) t)
    ∧ NoDup ts
    ∧ StronglySorted lex_lt ts
    ∧ Z.of_nat (length ts) = 2 ^ 3
    ∧ pmf d = repeat (Real (1 # Z.to_pos (2 ^ 3))) (Z.to_nat (2 ^ 3))
    ∧ get_base d = linear.
Proof. apply (proj1 uniform_joint_distribution_int 3 2 []); lia. Defined.

(** C3 as it is written fails on a negative alphabet size: [range(-1)] is
    empty, so the call returns a distribution without outcomes, not one of
    [(-1)^2 = 1] outcome. *)
Lemma uniform_joint_distribution_int_negative :
  uniform_joint_distribution 2 (VInt (-1)) [] =
    ([mkDist JointDistribution [] [] linear], Ok 0%nat)
  ∧ ¬ ∃ (d : distribution) (h' : heap) (l : loc),
        uniform_joint_distribution 2 (VInt (-1)) [] = (h', Ok l)
        ∧ h' !! l = Some d
        ∧ Z.of_nat (length (outcomes d)) = (-1) ^ 2.
Proof.
  split; [ reflexivity | ].
  intros (d & h' & l & Hrun & Hd & Hlen).
  injection Hrun as <- <-. injection Hd as <-. discriminate Hlen.
Qed.

(** A list or tuple is no integer for [int], so the handler resolves it. *)
Lemma resolve_alphabet_sequence (word_length : Z) (alphabet_size : value) (al : list value) :
  alphabet_size = VList al ∨ alphabet_size = VTuple al →
  resolve_alphabet word_length alphabet_size =
    if Z.of_nat (length al) =? 1 then
      match al with
      | a :: _ => Ok (repeat a (Z.to_nat word_length))
      | [] => Raise (IndexError "index out of range")
      end
    else if negb (Z.of_nat (length al) =? word_length) then
      Raise (TypeError "word_length does not match number of rvs.")
    else Ok al.
Proof.
  intros [-> | ->]; unfold resolve_alphabet; simpl;
    (destruct (Z.of_nat (length al) =? 1); [ destruct al; reflexivity | ]);
    destruct (negb _); reflexivity.
Qed.

Lemma uniform_joint_distribution_raise
    (word_length : Z) (alphabet_size : value) (e : exn) (h : heap) :
  resolve_alphabet word_length alphabet_size = Raise e →
  uniform_joint_distribution word_length alphabet_size h = (h, Raise e).
Proof.
  intros Hres. unfold uniform_joint_distribution, bind, lift.
  rewrite Hres. reflexivity.
Qed.

(** C6. A list that holds exactly one alphabet is broadcast: for every
    [word_length] [L] the alphabet of each of the [L] positions is that one
    alphabet, and (for [L > 0] and an alphabet of distinct symbols) the
    outcomes are the tuples of its [L]-fold product, equiprobable. In
    particular [uniform_joint_distribution(3, [[0,1]])] has [2^3 = 8]
    outcomes of probability [1/8]. A list of as many alphabets as
    [word_length] is used as it is, alphabet [i] at position [i]. *)
Theorem uniform_joint_distribution_broadcast :
  (∀ (L : Z) (a : value),
     resolve_alphabet L (VList [a]) = Ok (repeat a (Z.to_nat L)))
  ∧ (∀ (L : Z) (a : value) (pool : list value) (h : heap),
       0 < L → elements a = Some pool → pool ≠ [] → NoDup pool →
       ∃ d : distribution,
         uniform_joint_distribution L (VList [a]) h = (h ++ [d], Ok (length h))
         ∧ class_of d = JointDistribution
         ∧ outcomes d = map VTuple (product (repeat pool (Z.to_nat L)))
         ∧ (∀ t : list value,
              VTuple t ∈ outcomes d
              ↔ Z.of_nat (length t) = L ∧ Forall (fun x => x ∈ pool) t)
         ∧ pmf d = repeat (Real (1 # Pos.of_nat (length pool ^ Z.to_nat L)))
                          (length pool ^ Z.to_nat L)
         ∧ get_base d = linear)
  ∧ (∃ d : distribution,
       uniform_joint_distribution 3 (VList [VList [VInt 0; VInt 1]]) [] = ([d], Ok 0%nat)
       ∧ class_of d = JointDistribution
       ∧ outcomes d =
           map (fun t => VTuple (map VInt t))
             [[0; 0; 0]; [0; 0; 1]; [0; 1; 0]; [0; 1; 1];
              [1; 0; 0]; [1; 0; 1]; [1; 1; 0]; [1; 1; 1]]
       ∧ pmf d = repeat (Real (1 # 8)) 8
       ∧ get_base d = linear)
  ∧ (∀ (L : Z) (al : list value),
       Z.of_nat (length al) = L → resolve_alphabet L (VList al) = Ok al)
  ∧ (∀ (L : Z) (al : list value) (pools : list (list value)) (h : heap),
       Z.of_nat (length al) = L → pools_of al pools → Forall NoDup pools →
       ∃ d : distribution,
         uniform_joint_distribution L (VList al) h = (h ++ [d], Ok (length h))
         ∧ class_of d = JointDistribution
         ∧ outcomes d = map VTuple (product pools)
         ∧ (∀ t : list value,
              VTuple t ∈ outcomes d ↔ Forall2 (fun x pool => x ∈ pool) t pools)
         ∧ length (pmf d) = length (outcomes d)
         ∧ get_base d = linear).
Proof.
  assert (Hmem : ∀ (t : list value) (ts : list (list value)),
            VTuple t ∈ map VTuple ts ↔ t ∈ ts).
  { intros t ts. rewrite list_elem_of_fmap. split.
    - intros (s & [= ->] & Hs). exact Hs.
    - intros Ht. exists t. split; [ reflexivity | exact Ht ]. }
  assert (Hasis : ∀ (L : Z) (al : list value),
            Z.of_nat (length al) = L → resolve_alphabet L (VList al) = Ok al).
  { intros L al HL. rewrite (resolve_alphabet_sequence L _ al) by (left; reflexivity).
    destruct (Z.eqb_spec (Z.of_nat (length al)) 1) as [ H1 | _ ].
    - destruct al as [ | a [ | b al ] ]; simpl in H1; try lia.
      subst L. reflexivity.
    - rewrite (proj2 (Z.eqb_eq _ _) HL). reflexivity. }
  split_and!.
  - intros L a. reflexivity.
  - intros L a pool h HL Ha Hne Hnd.
    set (n := Z.to_nat L).
    assert (Hcount : (0 < length pool ^ n)%nat).
    { destruct pool; [ congruence | ]. apply Nat.neq_0_lt_0, Nat.pow_nonzero. simpl. lia. }
    exists (mkDist JointDistribution
              (repeat (Real (1 # Pos.of_nat (length pool ^ n))) (length pool ^ n))
              (map VTuple (product (repeat pool n))) linear).
    simpl. split_and!; try reflexivity.
    + rewrite (uniform_joint_distribution_ok L (VList [a]) (repeat a n) (repeat pool n) h).
      * rewrite length_product_repeat, np_truediv_1_pos by lia.
        replace (Z.to_pos (Z.of_nat (length pool ^ n))) with (Pos.of_nat (length pool ^ n))
          by lia.
        reflexivity.
      * reflexivity.
      * apply pools_of_repeat, Ha.
      * apply Forall_repeat, Hnd.
    + intros t. rewrite Hmem, elem_of_product_repeat. subst n. split; intros [? ?]; split; (lia || assumption).
  - exists (mkDist JointDistribution (repeat (Real (1 # 8)) 8)
              (map (fun t => VTuple (map VInt t))
                 (product (repeat (range 2) 3))) linear).
    split_and!; reflexivity.
  - exact Hasis.
  - intros L al pools h HL Hpools Hnd.
    exists (mkDist JointDistribution
              (repeat (np_truediv_1 (Z.of_nat (length (product pools))))
                      (length (product pools)))
              (map VTuple (product pools)) linear).
    simpl. split_and!; try reflexivity.
    + apply (uniform_joint_distribution_ok L (VList al) al pools h);
        [ apply Hasis, HL | exact Hpools | exact Hnd ].
    + intros t. rewrite Hmem. apply elem_of_product.
    + rewrite repeat_length, length_map. reflexivity.
Qed.

Lemma uniform_joint_distribution_broadcast_witness :
  ∃ d : distribution,
    uniform_joint_distribution 2 (VList [VStr "HT"]) [] = ([] ++ [d], Ok 0%nat)
    ∧ class_of d = JointDistribution
    ∧ outcomes d = map VTuple (product (repeat [VStr "H"; VStr "T"] (Z.to_nat 2)))
    ∧ (∀ t : list value,
         VTuple t ∈ outcomes d
         ↔ Z.of_nat (length t) = 2 ∧ Forall (fun x => x ∈ [VStr "H"; VStr "T"]) t)
    ∧ pmf d = repeat (Real (1 # Pos.of_nat (2 ^ Z.to_nat 2))) (2 ^ Z.to_nat 2)
    ∧ get_base d = linear.
Proof.
  apply (proj1 (proj2 uniform_joint_distribution_broadcast)
           2 (VStr "HT") [VStr "H"; VStr "T"] []).
  - lia.
  - reflexivity.
  - discriminate.
  - apply has_duplicates_NoDup. reflexivity.
Defined.

(** C7. For every [word_length] [L] and every list (or tuple) of alphabets
    whose length is neither 1 nor [L], [uniform_joint_distribution] raises
    the [TypeError] that names the mismatch and builds no distribution; so
    does [uniform_joint_distribution(2, [[0,1],[1,2],[3,4]])]. *)
Theorem uniform_joint_distribution_shape_mismatch :
  (∀ (L : Z) (alphabet_size : value) (al : list value) (h : heap),
     alphabet_size = VList al ∨ alphabet_size = VTuple al →
     Z.of_nat (length al) ≠ 1 → Z.of_nat (length al) ≠ L →
     uniform_joint_distribution L alphabet_size h =
       (h, Raise (TypeError "word_length does not match number of rvs.")))
  ∧ uniform_joint_distribution 2
      (VList [VList [VInt 0; VInt 1]; VList [VInt 1; VInt 2]; VList [VInt 3; VInt 4]]) []
    = ([], Raise (TypeError "word_length does not match number of rvs."))
  ∧ String.prefix "word_length does not match number of rvs"
      "word_length does not match number of rvs." = true.
Proof.
  split_and!; [ | reflexivity | reflexivity ].
  intros L alphabet_size al h Hal H1 HL.
  apply uniform_joint_distribution_raise.
  rewrite (resolve_alphabet_sequence L _ al Hal).
  destruct (Z.eqb_spec (Z.of_nat (length al)) 1) as [ | _ ]; [ contradiction | ].
  destruct (Z.eqb_spec (Z.of_nat (length al)) L) as [ | _ ]; [ contradiction | ].
  reflexivity.
Qed.

Lemma uniform_joint_distribution_shape_mismatch_witness :
  uniform_joint_distribution 3 (VList [VStr "0"; VStr "1"]) [] =
    ([], Raise (TypeError "word_length does not match number of rvs.")).
Proof.
  apply (proj1 uniform_joint_distribution_shape_mismatch
           3 (VList [VStr "0"; VStr "1"]) [VStr "0"; VStr "1"] []).
  - left. reflexivity.
  - simpl. lia.
  - simpl. lia.
Defined.

(** C8, for the arguments on which the module's own message is raised. For
    every [word_length] [L > 0] and every list (or tuple) [alphabet_size]
    whose length is 1 or [L] and one of whose elements has no length,
    [uniform_joint_distribution] raises the [TypeError] with the message
    "alphabet_size must be an int or list of lists." and builds no
    distribution. *)
Theorem uniform_joint_distribution_not_lists
    (L : Z) (alphabet_size : value) (al : list value) (h : heap) :
  alphabet_size = VList al ∨ alphabet_size = VTuple al →
  0 < L →
  Z.of_nat (length al) = 1 ∨ Z.of_nat (length al) = L →
  Exists (fun a => elements a = None) al →
  uniform_joint_distribution L alphabet_size h =
    (h, Raise (TypeError "alphabet_size must be an int or list of lists.")).
Proof.
  intros Hal HL Hlen Hex.
  assert (Hres : ∃ alphabet : list value,
            resolve_alphabet L alphabet_size = Ok alphabet
            ∧ Exists (fun a => elements a = None) alphabet).
  { rewrite (resolve_alphabet_sequence L _ al Hal).
    destruct (Z.eqb_spec (Z.of_nat (length al)) 1) as [ H1 | H1 ].
    - destruct al as [ | a [ | b al ] ]; simpl in H1; try lia.
      exists (repeat a (Z.to_nat L)). split; [ reflexivity | ].
      inversion Hex as [ ? ? Ha | ? ? Hnil ]; subst; [ | inversion Hnil ].
      destruct (Z.to_nat L) as [ | n ] eqn:En; [ lia | ].
      simpl. apply Exists_cons_hd, Ha.
    - destruct Hlen as [ | Hlen ]; [ contradiction | ].
      rewrite (proj2 (Z.eqb_eq _ _) Hlen). exists al. split; [ reflexivity | exact Hex ]. }
  destruct Hres as (alphabet & Hres & Hun).
  destruct (map_result_len_unsized _ Hun) as (msg & Hmsg).
  unfold uniform_joint_distribution, bind, lift.
  rewrite Hres, Hmsg. reflexivity.
Qed.

Lemma uniform_joint_distribution_not_lists_witness :
  uniform_joint_distribution 2 (VList [VInt 1; VInt 2]) [] =
    ([], Raise (TypeError "alphabet_size must be an int or list of lists.")).
Proof.
  apply (uniform_joint_distribution_not_lists 2 (VList [VInt 1; VInt 2])
           [VInt 1; VInt 2] []).
  - left. reflexivity.
  - lia.
  - right. reflexivity.
  - apply Exists_cons_hd. reflexivity.
Defined.

(** C8 as it is written fails. [None] is no integer for [int] and no list of
    lists, yet the error it meets is the [TypeError] of [len], raised in the
    handler before any alphabet is measured. A list of integers whose length
    differs from [word_length] meets the shape check first. A string that is
    no literal meets the [ValueError] of [int], which no handler catches. *)
Lemma uniform_joint_distribution_other_errors :
  (int VNone = Raise (TypeError "int() argument must be a string or a number, not 'NoneType'")
   ∧ elements VNone = None
   ∧ uniform_joint_distribution 2 VNone [] =
       ([], Raise (TypeError "object of type 'NoneType' has no len()"))
   ∧ uniform_joint_distribution 2 VNone [] ≠
       ([], Raise (TypeError "alphabet_size must be an int or list of lists.")))
  ∧ (uniform_joint_distribution 3 (VList [VInt 1; VInt 2]) [] =
       ([], Raise (TypeError "word_length does not match number of rvs.")))
  ∧ (uniform_joint_distribution 2 (VStr "ab") [] =
       ([], Raise (ValueError "invalid literal for int() with base 10: 'ab'"))).
Proof.
  split_and!; try reflexivity. discriminate.
Qed.

(** ** Allocation and frame *)

Lemma new_allocates (cls : klass) (p : list pyfloat) (o : value) (b : base) :
  allocates (new cls p o b).
Proof.
  intros h. unfold new, bind, lift.
  destruct (iterate o) as [ os | e ]; [ | right; eexists; reflexivity ].
  destruct (validate p os) as [ [] | e ]; [ left | right ]; eexists; reflexivity.
Qed.

Lemma bind_lift_allocates {A : Type} (r : result A) (k : A → M loc) :
  (∀ a : A, allocates (k a)) → allocates (bind (lift r) k).
Proof.
  intros Hk h. unfold bind, lift. destruct r as [ a | e ].
  - apply Hk.
  - right. eexists. reflexivity.
Qed.

Lemma uniform_distribution_allocates (n : value) : allocates (uniform_distribution n).
Proof.
  unfold uniform_distribution.
  apply bind_lift_allocates. intros [nOutcomes outs].
  apply bind_lift_allocates. intros p.
  apply bind_lift_allocates. intros v.
  apply new_allocates.
Qed.

Lemma uniform_joint_distribution_allocates (word_length : Z) (alphabet_size : value) :
  allocates (uniform_joint_distribution word_length alphabet_size).
Proof.
  unfold uniform_joint_distribution.
  apply bind_lift_allocates. intros alphabet.
  apply bind_lift_allocates. intros nZ.
  apply bind_lift_allocates. intros pools.
  apply new_allocates.
Qed.

Lemma modify_outcomes_allocates (dist : loc) (ctor : value → value) :
  allocates (modify_outcomes dist ctor).
Proof.
  intros h. unfold modify_outcomes, bind, deref.
  destruct (h !! dist) as [ d | ]; [ | right; eexists; reflexivity ].
  apply new_allocates.
Qed.

(** The constructors make well-formed objects. *)
Lemma new_well_formed (cls : klass) (p : list pyfloat) (o : value) (b : base)
    (h : heap) (d : distribution) (l : loc) :
  new cls p o b h = (h ++ [d], Ok l) → well_formed d.
Proof.
  unfold new, bind, lift.
  destruct (iterate o) as [ os | e ]; [ | intros [=] ].
  destruct (validate p os) as [ [] | e ] eqn:Ev; [ | intros [=] ].
  intros [= Hd _]. apply app_inv_head in Hd. injection Hd as <-.
  apply validate_inv, Ev.
Qed.

(** ** [modify_outcomes] *)

(** C4. For every distribution [dist] of the store (of either class) and
    every transform [ctor], [modify_outcomes(dist, ctor)] is the construction,
    by the class of [dist], of an object from the pmf of [dist], [ctor]
    applied to each of its outcomes in order, and its base; with the
    transform keeping the outcomes pairwise distinct, as the outcomes of a
    distribution are, it returns a new object of the class of [dist] with
    these outcomes, the pmf and the base of [dist]. The class is read off
    the argument: a [JointDistribution] gives a [JointDistribution]. *)
Theorem modify_outcomes_remap :
  (∀ (dist : loc) (ctor : value → value) (h : heap) (d : distribution),
     h !! dist = Some d →
     modify_outcomes dist ctor h =
       new (class_of d) (pmf d) (VList (map ctor (outcomes d))) (get_base d) h)
  ∧ (∀ (dist : loc) (ctor : value → value) (h : heap) (d : distribution),
       h !! dist = Some d →
       well_formed d →
       NoDup (map ctor (outcomes d)) →
       ∃ d' : distribution,
         modify_outcomes dist ctor h = (h ++ [d'], Ok (length h))
         ∧ length h ≠ dist
         ∧ class_of d' = class_of d
         ∧ outcomes d' = map ctor (outcomes d)
         ∧ pmf d' = pmf d
         ∧ get_base d' = get_base d
         ∧ (class_of d = JointDistribution → class_of d' = JointDistribution)).
Proof.
  split.
  - intros dist ctor h d Hd. unfold modify_outcomes, bind, deref. rewrite Hd.
    reflexivity.
  - intros dist ctor h d Hd [Hlen _] Hnd.
    exists (mkDist (class_of d) (pmf d) (map ctor (outcomes d)) (get_base d)).
    simpl. split_and!; try reflexivity.
    + unfold modify_outcomes, bind, deref. rewrite Hd.
      apply new_ok; [ reflexivity | rewrite length_map; exact Hlen | exact Hnd ].
    + apply lookup_lt_Some in Hd. lia.
    + intros Hj. exact Hj.
Qed.

Lemma modify_outcomes_remap_witness :
  let d := mkDist JointDistribution (repeat (Real (1 # 4)) 4)
             (map VTuple (product (repeat (chars "01") 2))) linear in
  ∃ d' : distribution,
    modify_outcomes 0%nat join_pair [d] = ([d] ++ [d'], Ok 1%nat)
    ∧ 1%nat ≠ 0%nat
    ∧ class_of d' = JointDistribution
    ∧ outcomes d' = [VStr "00"; VStr "01"; VStr "10"; VStr "11"]
    ∧ pmf d' = repeat (Real (1 # 4)) 4
    ∧ get_base d' = linear
    ∧ (JointDistribution = JointDistribution → class_of d' = JointDistribution).
Proof.
  intros d. apply (proj2 modify_outcomes_remap 0%nat join_pair [d] d).
  - reflexivity.
  - split; [ reflexivity | apply has_duplicates_NoDup; reflexivity ].
  - apply has_duplicates_NoDup. reflexivity.
Defined.

(** C10. Whatever [modify_outcomes(dist, ctor)] does, every object of the
    store, [dist] among them, is after the call what it was before: same
    outcomes, same pmf, same base. When the call returns, what it returns is
    a reference that did not exist before, to the one object added to the
    store, and that object carries the transformed outcomes; when it raises,
    the store is the same. *)
Theorem modify_outcomes_frame (dist : loc) (ctor : value → value) (h : heap) :
  ∃ (h' : heap) (r : result loc),
    modify_outcomes dist ctor h = (h', r)
    ∧ (∀ (l : loc) (d : distribution), h !! l = Some d → h' !! l = Some d)
    ∧ match r with
      | Ok l' =>
          h !! l' = None
          ∧ ∃ d d' : distribution,
              h !! dist = Some d
              ∧ h' = h ++ [d']
              ∧ h' !! l' = Some d'
              ∧ outcomes d' = map ctor (outcomes d)
      | Raise _ => h' = h
      end.
Proof.
  destruct (modify_outcomes_allocates dist ctor h) as [ (d' & Hrun) | (e & Hrun) ].
  - exists (h ++ [d']), (Ok (length h)). split_and!.
    + exact Hrun.
    + intros l d Hl. apply lookup_app_l_Some, Hl.
    + apply lookup_ge_None_2. lia.
    + unfold modify_outcomes, bind, deref in Hrun.
      destruct (h !! dist) as [ d | ] eqn:Hd; [ | discriminate Hrun ].
      exists d, d'. split_and!; try reflexivity.
      * apply list_lookup_middle. reflexivity.
      * revert Hrun. unfold new, bind, lift. simpl.
        destruct (validate _ _) as [ [] | e ]; simpl; [ | intros [=] ].
        intros [= Heq]. apply app_inv_head in Heq. injection Heq as <-. reflexivity.
  - exists h, (Raise e). split_and!; [ exact Hrun | intros l d Hl; exact Hl | reflexivity ].
Qed.

Lemma modify_outcomes_frame_witness :
  let d := mkDist Distribution [Real (1 # 2); Real (1 # 2)] [VInt 0; VInt 1] linear in
  let incr := fun x => match x with VInt z => VInt (z + 1) | _ => x end in
  ∃ (h' : heap) (r : result loc),
    modify_outcomes 0%nat incr [d] = (h', r)
    ∧ h' !! 0%nat = Some d
    ∧ r = Ok 1%nat.
Proof.
  intros d incr.
  destruct (modify_outcomes_frame 0%nat incr [d]) as (h' & r & Hrun & Hframe & _).
  exists h', r. split_and!.
  - exact Hrun.
  - apply Hframe. reflexivity.
  - injection Hrun as _ <-. reflexivity.
Defined.

(** ** [random_distribution] and [random_joint_distribution] *)

Section RandomSamplerProperties.
Variable G : Type.
Variable dirichlet : G → list pyfloat → list pyfloat * G.
Variable default_prng : G.

Lemma redraws_skeleton (g : G) (skeleton : M loc) :
  allocates skeleton →
  redraws dirichlet g skeleton
    (do d <- skeleton;
     do k <- len_dist d;
     let '(pmf, prng') := dirichlet g (np_ones k) in
     do _ <- set_pmf d pmf;
     ret (d, prng')).
Proof.
  intros Halloc h.
  destruct (Halloc h) as [ (d & Hd) | (e & He) ].
  - rewrite Hd. exists d. split_and!; try reflexivity.
    unfold len_dist, set_pmf, bind, deref, ret, np_ones. rewrite Hd.
    cbn beta iota.
    rewrite list_lookup_middle by reflexivity.
    rewrite Nat2Z.id.
    destruct (dirichlet g (repeat (Real 1) (length (outcomes d)))) as [ p g' ].
    rewrite list_lookup_middle by reflexivity. simpl.
    rewrite insert_app_r_alt by lia.
    rewrite Nat.sub_diag. split_and!; reflexivity.
  - rewrite He. unfold bind. rewrite He. reflexivity.
Qed.

(** C5. For every [n] and every pseudo-random source, [random_distribution]
    returns the object that [uniform_distribution(n)] builds, with the same
    outcomes, its pmf being exactly the vector that the source's Dirichlet
    draw returns for a concentration vector of ones, one per outcome; and it
    fails where and as [uniform_distribution(n)] fails.
    [random_joint_distribution] does the same with the object that
    [uniform_joint_distribution(word_length, alphabet_size)] builds. Without
    a source, the draw is from [dit.math.prng]. *)
Theorem random_distribution_draw (prng : option G) :
  (∀ n : value,
     redraws dirichlet (source G default_prng prng) (uniform_distribution n)
       (random_distribution G dirichlet default_prng n prng))
  ∧ (∀ (word_length : Z) (alphabet_size : value),
       redraws dirichlet (source G default_prng prng)
         (uniform_joint_distribution word_length alphabet_size)
         (random_joint_distribution G dirichlet default_prng
            word_length alphabet_size prng)).
Proof.
  split.
  - intros n. apply redraws_skeleton, uniform_distribution_allocates.
  - intros word_length alphabet_size.
    apply redraws_skeleton, uniform_joint_distribution_allocates.
Qed.

End RandomSamplerProperties.

(** A source, for illustration: its state counts the draws, and every draw
    gives the first outcome a quarter of the mass and shares the rest. *)
Lemma random_distribution_draw_witness :
  let toy := fun (g : nat) (alpha : list pyfloat) =>
               (match alpha with
                | [] => []
                | _ :: rest =>
                    Real (1 # 4)
                      :: map (fun _ => Real (3 # 4 * Pos.of_nat (length rest))) rest
                end, S g) in
  random_distribution nat toy 0%nat (VInt 3) (Some 5%nat) [] =
    ([mkDist Distribution [Real (1 # 4); Real (3 # 8); Real (3 # 8)]
        [VInt 0; VInt 1; VInt 2] linear],
     Ok (0%nat, 6%nat)).
Proof.
  intros toy.
  pose proof (proj1 (random_distribution_draw nat toy 0%nat (Some 5%nat)) (VInt 3) [])
    as Hdraw.
  simpl in Hdraw. destruct Hdraw as (d & Hd & _ & Hrun & _).
  injection Hd as <-. exact Hrun.
Defined.

(** * Further properties of the operations *)

(** ** What the constructor can answer *)

(** With a pmf as long as the outcomes, a construction either succeeds or
    fails on a repeated outcome. *)
Lemma new_cases (cls : klass) (p : list pyfloat) (o : value) (os : list value)
    (b : base) (h : heap) :
  elements o = Some os → length p = length os →
  (NoDup os ∧ new cls p o b h = (h ++ [mkDist cls p os b], Ok (length h)))
  ∨ (¬ NoDup os ∧ new cls p o b h = (h, Raise (InvalidDistribution DuplicateOutcomes))).
Proof.
  intros Ho Hlen. destruct (has_duplicates os) eqn:E.
  - right. assert (Hnd : ¬ NoDup os).
    { intros Hnd. apply has_duplicates_NoDup in Hnd. congruence. }
    split; [ exact Hnd | apply (new_duplicates _ _ _ os); assumption ].
  - left. apply has_duplicates_NoDup in E.
    split; [ exact E | apply new_ok; assumption ].
Qed.

Lemma uniform_distribution_nonzero (z : Z) (h : heap) :
  z ≠ 0 →
  uniform_distribution (VInt z) h =
    (h ++ [mkDist Distribution (repeat (Real (1 / inject_Z z)) (Z.to_nat z))
             (map VInt (range z)) linear],
     Ok (length h)).
Proof.
  intros Hz. rewrite uniform_distribution_int. unfold truediv_1.
  destruct (Z.eqb_spec z 0) as [ | _ ]; [ contradiction | ].
  apply new_ok.
  - reflexivity.
  - rewrite repeat_length, length_map, length_range. reflexivity.
  - apply NoDup_VInt, NoDup_range.
Qed.

(** ** What reaches the constructor *)

Lemma resolve_alphabet_raises (word_length : Z) (alphabet_size : value) (e : exn) :
  resolve_alphabet word_length alphabet_size = Raise e →
  (∃ msg : string, e = TypeError msg)
  ∨ (∃ (msg : string) (s : string), e = ValueError msg ∧ alphabet_size = VStr s).
Proof.
  destruct alphabet_size as [ | k | s | al | al ].
  - intros [= <-]. left. eexists. reflexivity.
  - discriminate.
  - unfold resolve_alphabet, int. destruct (int_literal s) as [ z | ]; simpl.
    + intros [= <-]. left. eexists. reflexivity.
    + intros [= <-]. right. eexists. exists s. split; reflexivity.
  - rewrite (resolve_alphabet_sequence _ _ al) by (left; reflexivity).
    destruct (Z.eqb_spec (Z.of_nat (length al)) 1) as [ H1 | _ ].
    + destruct al; [ simpl in H1; lia | discriminate ].
    + destruct (negb _); [ | discriminate ].
      intros [= <-]. left. eexists. reflexivity.
  - rewrite (resolve_alphabet_sequence _ _ al) by (right; reflexivity).
    destruct (Z.eqb_spec (Z.of_nat (length al)) 1) as [ H1 | _ ].
    + destruct al; [ simpl in H1; lia | discriminate ].
    + destruct (negb _); [ | discriminate ].
      intros [= <-]. left. eexists. reflexivity.
Qed.

(** Every alphabet has its elements, or one of them has no length. *)
Lemma pools_or_unsized (alphabet : list value) :
  (∃ pools : list (list value), pools_of alphabet pools)
  ∨ Exists (fun a => elements a = None) alphabet.
Proof.
  induction alphabet as [ | a alphabet [ (pools & IH) | IH ] ].
  - left. exists []. constructor.
  - destruct (elements a) as [ pool | ] eqn:Ea.
    + left. exists (pool :: pools). constructor; assumption.
    + right. apply Exists_cons_hd, Ea.
  - right. apply Exists_cons_tl, IH.
Qed.

Lemma uniform_joint_distribution_unsized
    (word_length : Z) (alphabet_size : value) (alphabet : list value) (h : heap) :
  resolve_alphabet word_length alphabet_size = Ok alphabet →
  Exists (fun a => elements a = None) alphabet →
  uniform_joint_distribution word_length alphabet_size h =
    (h, Raise (TypeError "alphabet_size must be an int or list of lists.")).
Proof.
  intros Hres Hun. destruct (map_result_len_unsized _ Hun) as (msg & Hmsg).
  unfold uniform_joint_distribution, bind, lift.
  rewrite Hres, Hmsg. reflexivity.
Qed.

(** X1. [uniform_distribution(n)] fails on its own account in two ways only,
    both before the constructor is reached and with the store as it was: the
    [TypeError] of [range] for an argument that has no length and is no
    integer, and the [ZeroDivisionError] for the integer 0 or an empty
    sequence. On every other argument the call is one construction of a
    [Distribution], in linear base, from the outcomes and a pmf of as many
    entries as there are outcomes, all equal. *)
Theorem uniform_distribution_constructs (n : value) (h : heap) :
  (elements n = None ∧ (∀ z : Z, n ≠ VInt z)
   ∧ uniform_distribution n h =
       (h, Raise (TypeError ("range() integer end argument expected, got "
                               ++ type_name n ++ ".")%string)))
  ∨ ((n = VInt 0 ∨ elements n = Some [])
     ∧ uniform_distribution n h = (h, Raise (ZeroDivisionError "division by zero")))
  ∨ (∃ (q : pyfloat) (o : value) (os : list value),
       elements o = Some os
       ∧ (o = n ∧ os ≠ []
          ∨ ∃ z : Z, n = VInt z ∧ z ≠ 0 ∧ o = VList (map VInt (range z)))
       ∧ uniform_distribution n h =
           new Distribution (repeat q (length os)) o linear h).
Proof.
  destruct (elements n) as [ xs | ] eqn:En.
  - destruct xs as [ | x xs ].
    + right. left. split; [ right; reflexivity | ].
      rewrite (uniform_distribution_sized _ _ _ En). reflexivity.
    + right. right. eexists _, n, (x :: xs).
      split_and!; [ exact En | left; split; [ reflexivity | discriminate ] | ].
      apply (uniform_distribution_nonempty _ _ _ En). discriminate.
  - destruct n as [ | z | s | xs | xs ]; try discriminate En.
    + left. split_and!; [ reflexivity | discriminate | reflexivity ].
    + destruct (Z.eq_dec z 0) as [ -> | Hz ].
      * right. left. split; [ left; reflexivity | ].
        rewrite uniform_distribution_int. reflexivity.
      * right. right. exists (Real (1 / inject_Z z)), (VList (map VInt (range z))),
          (map VInt (range z)).
        split_and!; [ reflexivity | right; exists z; split_and!; auto | ].
        rewrite uniform_distribution_int. unfold truediv_1.
        destruct (Z.eqb_spec z 0) as [ | _ ]; [ contradiction | ].
        rewrite length_map, length_range. reflexivity.
Qed.

(** X2. [uniform_joint_distribution] fails on its own account only with a
    [TypeError] or, for a string, with the [ValueError] of [int], the store
    being as it was: it raises no [ZeroDivisionError] (the division is
    numpy's) and no [IndexError] from [alphabet[0]]. On every other argument
    the call is one construction of a [JointDistribution], in linear base,
    from the tuples of the product of the resolved alphabets and a pmf of one
    entry per tuple, all equal. *)
Theorem uniform_joint_distribution_constructs
    (word_length : Z) (alphabet_size : value) (h : heap) :
  (∃ e : exn,
     uniform_joint_distribution word_length alphabet_size h = (h, Raise e)
     ∧ ((∃ msg : string, e = TypeError msg)
        ∨ (∃ (msg : string) (s : string),
             e = ValueError msg ∧ alphabet_size = VStr s)))
  ∨ (∃ (alphabet : list value) (pools : list (list value)) (q : pyfloat),
       resolve_alphabet word_length alphabet_size = Ok alphabet
       ∧ pools_of alphabet pools
       ∧ uniform_joint_distribution word_length alphabet_size h =
           new JointDistribution (repeat q (length (product pools)))
             (VTuple (map VTuple (product pools))) linear h).
Proof.
  destruct (resolve_alphabet word_length alphabet_size) as [ alphabet | e ] eqn:Hres.
  - destruct (pools_or_unsized alphabet) as [ (pools & Hpools) | Hun ].
    + right. eexists alphabet, pools, _. split_and!; [ reflexivity | exact Hpools | ].
      apply (uniform_joint_distribution_resolved _ _ _ _ _ Hres Hpools).
    + left. eexists. split.
      * apply (uniform_joint_distribution_unsized _ _ _ _ Hres Hun).
      * left. eexists. reflexivity.
  - left. exists e. split.
    + apply (uniform_joint_distribution_raise _ _ _ _ Hres).
    + apply (resolve_alphabet_raises _ _ _ Hres).
Qed.

(** ** Normalisation *)

(** X4. The distribution that [uniform_distribution] builds over a non-empty
    sequence of distinct elements is normalised: it has one probability per
    outcome and they sum to 1. *)
Theorem uniform_distribution_normalised (S : value) (xs : list value) (h : heap) :
  elements S = Some xs → xs ≠ [] → NoDup xs →
  ∃ (d : distribution) (s : Q),
    uniform_distribution S h = (h ++ [d], Ok (length h))
    ∧ outcomes d = xs
    ∧ length (pmf d) = length (outcomes d)
    ∧ total (pmf d) = Some s
    ∧ (s == 1)%Q.
Proof.
  intros HS Hne Hnd.
  assert (Hpos : (0 < length xs)%nat) by (destruct xs; [ congruence | simpl; lia ]).
  destruct (total_uniform (Pos.of_nat (length xs))) as (s & Hs & H1).
  rewrite Nat2Pos.id in Hs by lia.
  exists (mkDist Distribution
            (repeat (Real (1 # Pos.of_nat (length xs))) (length xs)) xs linear), s.
  simpl. split_and!; try assumption; try reflexivity.
  - rewrite (uniform_distribution_nonempty _ _ _ HS Hne).
    apply new_ok; [ exact HS | apply repeat_length | exact Hnd ].
  - apply repeat_length.
Qed.

Lemma uniform_distribution_normalised_witness :
  ∃ (d : distribution) (s : Q),
    uniform_distribution (VStr "abc") [] = ([] ++ [d], Ok 0%nat)
    ∧ outcomes d = [VStr "a"; VStr "b"; VStr "c"]
    ∧ length (pmf d) = length (outcomes d)
    ∧ total (pmf d) = Some s
    ∧ (s == 1)%Q.
Proof.
  apply (uniform_distribution_normalised (VStr "abc") [VStr "a"; VStr "b"; VStr "c"] []).
  - reflexivity.
  - discriminate.
  - apply has_duplicates_NoDup. reflexivity.
Defined.

Lemma resolve_alphabet_as_is (L : Z) (al : list value) :
  Z.of_nat (length al) = L → resolve_alphabet L (VList al) = Ok al.
Proof.
  intros HL. rewrite (resolve_alphabet_sequence L _ al) by (left; reflexivity).
  destruct (Z.eqb_spec (Z.of_nat (length al)) 1) as [ H1 | _ ].
  - destruct al as [ | a [ | b al ] ]; simpl in H1; try lia.
    subst L. reflexivity.
  - rewrite (proj2 (Z.eqb_eq _ _) HL). reflexivity.
Qed.

Lemma product_size_pos (pools : list (list value)) :
  Forall (fun pool => pool ≠ []) pools →
  (0 < fold_right Nat.mul 1 (map length pools))%nat.
Proof.
  induction 1 as [ | pool pools Hne _ IH ]; simpl; [ lia | ].
  destruct pool; [ congruence | ]. simpl. lia.
Qed.

(** X5. With one alphabet per position, each non-empty and of distinct
    symbols, [uniform_joint_distribution] builds a normalised distribution
    over the product of the alphabets: as many outcomes as the product [Z] of
    the alphabet sizes, each of probability [1/Z], summing to 1. *)
Theorem uniform_joint_distribution_alphabets
    (L : Z) (al : list value) (pools : list (list value)) (h : heap) :
  Z.of_nat (length al) = L →
  pools_of al pools →
  Forall NoDup pools →
  Forall (fun pool => pool ≠ []) pools →
  ∃ (d : distribution) (s : Q),
    uniform_joint_distribution L (VList al) h = (h ++ [d], Ok (length h))
    ∧ outcomes d = map VTuple (product pools)
    ∧ length (outcomes d) = fold_right Nat.mul 1%nat (map length pools)
    ∧ pmf d = repeat (Real (1 # Pos.of_nat (fold_right Nat.mul 1%nat (map length pools))))
                     (fold_right Nat.mul 1%nat (map length pools))
    ∧ total (pmf d) = Some s
    ∧ (s == 1)%Q.
Proof.
  intros HL Hpools Hnd Hne.
  set (N := fold_right Nat.mul 1%nat (map length pools)).
  assert (HN : (0 < N)%nat) by apply product_size_pos, Hne.
  assert (Hlen : length (product pools) = N) by apply length_product.
  destruct (total_uniform (Pos.of_nat N)) as (s & Hs & H1).
  rewrite Nat2Pos.id in Hs by lia.
  exists (mkDist JointDistribution (repeat (Real (1 # Pos.of_nat N)) N)
            (map VTuple (product pools)) linear), s.
  simpl. split_and!; try assumption; try reflexivity.
  - rewrite (uniform_joint_distribution_ok L (VList al) al pools h
               (resolve_alphabet_as_is L al HL) Hpools Hnd).
    rewrite Hlen, np_truediv_1_pos by lia.
    replace (Z.to_pos (Z.of_nat N)) with (Pos.of_nat N) by lia. reflexivity.
  - rewrite length_map. exact Hlen.
Qed.

Lemma uniform_joint_distribution_alphabets_witness :
  ∃ (d : distribution) (s : Q),
    uniform_joint_distribution 2
      (VList [VList [VInt 0; VInt 1]; VList [VInt 1; VInt 2]]) []
    = ([] ++ [d], Ok 0%nat)
    ∧ outcomes d =
        map VTuple (product [[VInt 0; VInt 1]; [VInt 1; VInt 2]])
    ∧ length (outcomes d) = 4%nat
    ∧ pmf d = repeat (Real (1 # 4)) 4
    ∧ total (pmf d) = Some s
    ∧ (s == 1)%Q.
Proof.
  apply (uniform_joint_distribution_alphabets 2
           [VList [VInt 0; VInt 1]; VList [VInt 1; VInt 2]]
           [[VInt 0; VInt 1]; [VInt 1; VInt 2]] []).
  - reflexivity.
  - repeat constructor.
  - constructor; [ apply has_duplicates_NoDup; reflexivity | ].
    constructor; [ apply has_duplicates_NoDup; reflexivity | constructor ].
  - constructor; [ discriminate | ]. constructor; [ discriminate | constructor ].
Defined.

(** ** The length of the words *)

Lemma resolve_alphabet_length (L : Z) (alphabet_size : value) (alphabet : list value) :
  0 ≤ L →
  resolve_alphabet L alphabet_size = Ok alphabet →
  length alphabet = Z.to_nat L.
Proof.
  intros HL. destruct alphabet_size as [ | k | s | al | al ].
  - discriminate.
  - intros [= <-]. apply repeat_length.
  - unfold resolve_alphabet, int. destruct (int_literal s); discriminate.
  - rewrite (resolve_alphabet_sequence _ _ al) by (left; reflexivity).
    destruct (Z.eqb_spec (Z.of_nat (length al)) 1) as [ H1 | _ ].
    + destruct al; [ discriminate | ]. intros [= <-]. apply repeat_length.
    + destruct (Z.eqb_spec (Z.of_nat (length al)) L) as [ Heq | _ ]; [ | discriminate ].
      intros [= <-]. lia.
  - rewrite (resolve_alphabet_sequence _ _ al) by (right; reflexivity).
    destruct (Z.eqb_spec (Z.of_nat (length al)) 1) as [ H1 | _ ].
    + destruct al; [ discriminate | ]. intros [= <-]. apply repeat_length.
    + destruct (Z.eqb_spec (Z.of_nat (length al)) L) as [ Heq | _ ]; [ | discriminate ].
      intros [= <-]. lia.
Qed.

(** X6. Whatever the form of [alphabet_size], every outcome of a joint
    distribution that [uniform_joint_distribution(word_length, ...)] returns
    is a tuple of exactly [word_length] components ([word_length >= 0]), and
    the object is a [JointDistribution] with one probability per outcome. *)
Theorem uniform_joint_distribution_words
    (L : Z) (alphabet_size : value) (h h' : heap) (l : loc) :
  0 ≤ L →
  uniform_joint_distribution L alphabet_size h = (h', Ok l) →
  ∃ d : distribution,
    h' = h ++ [d] ∧ l = length h
    ∧ class_of d = JointDistribution
    ∧ length (pmf d) = length (outcomes d)
    ∧ Forall (fun o => ∃ t : list value, o = VTuple t ∧ Z.of_nat (length t) = L)
             (outcomes d).
Proof.
  intros HL Hrun.
  destruct (resolve_alphabet L alphabet_size) as [ alphabet | e ] eqn:Hres;
    [ | rewrite (uniform_joint_distribution_raise _ _ _ _ Hres) in Hrun; discriminate Hrun ].
  destruct (pools_or_unsized alphabet) as [ (pools & Hpools) | Hun ];
    [ | rewrite (uniform_joint_distribution_unsized _ _ _ _ Hres Hun) in Hrun;
        discriminate Hrun ].
  rewrite (uniform_joint_distribution_resolved _ _ _ _ _ Hres Hpools) in Hrun.
  destruct (new_cases JointDistribution
              (repeat (np_truediv_1 (Z.of_nat (length (product pools))))
                      (length (product pools)))
              (VTuple (map VTuple (product pools)))
              (map VTuple (product pools)) linear h eq_refl)
    as [ [_ Hok] | [_ Hdup] ].
  - rewrite repeat_length, length_map. reflexivity.
  - rewrite Hok in Hrun. injection Hrun as <- <-.
    eexists. split_and!; try reflexivity; simpl.
    + rewrite repeat_length, length_map. reflexivity.
    + apply Forall_forall. intros o Ho.
      apply list_elem_of_fmap in Ho as (t & -> & Ht).
      exists t. split; [ reflexivity | ].
      apply elem_of_product, Forall2_length in Ht.
      apply Forall2_length in Hpools.
      rewrite Ht, <- Hpools, (resolve_alphabet_length _ _ _ HL Hres). lia.
  - rewrite Hdup in Hrun. discriminate Hrun.
Qed.

Lemma uniform_joint_distribution_words_witness :
  ∃ d : distribution,
    [mkDist JointDistribution [Real (1 # 2); Real (1 # 2)]
       [VTuple [VStr "a"; VStr "a"; VStr "b"]; VTuple [VStr "b"; VStr "a"; VStr "b"]]
       linear] = [] ++ [d]
    ∧ 0%nat = length ([] : heap)
    ∧ class_of d = JointDistribution
    ∧ length (pmf d) = length (outcomes d)
    ∧ Forall (fun o => ∃ t : list value, o = VTuple t ∧ Z.of_nat (length t) = 3)
             (outcomes d).
Proof.
  apply (uniform_joint_distribution_words 3 (VTuple [VStr "ab"; VStr "a"; VStr "b"]) []).
  - lia.
  - reflexivity.
Defined.

(** ** Forms of [alphabet_size] *)

(** X7. A string is never accepted as [alphabet_size], although it has a
    length: [int] is tried first, so a string that is no literal raises the
    [ValueError] of [int], which is not handled, and a literal reaches
    [range], which raises a [TypeError] on a string. Nothing is built. *)
Theorem uniform_joint_distribution_string (L : Z) (s : string) (h : heap) :
  ∃ e : exn,
    uniform_joint_distribution L (VStr s) h = (h, Raise e)
    ∧ match int_literal s with
      | Some _ => e = TypeError "range() integer end argument expected, got str."
      | None => ∃ msg : string, e = ValueError msg
      end.
Proof.
  destruct (int_literal s) as [ z | ] eqn:Es.
  - eexists. split; [ | reflexivity ].
    apply uniform_joint_distribution_raise.
    unfold resolve_alphabet, int. rewrite Es. reflexivity.
  - eexists. split; [ | eexists; reflexivity ].
    apply uniform_joint_distribution_raise.
    unfold resolve_alphabet, int. rewrite Es. reflexivity.
Qed.

Lemma product_singletons {A : Type} (l : list A) :
  product (map (fun x => [x]) l) = [l].
Proof.
  induction l as [ | x l IH ]; [ reflexivity | ].
  simpl. rewrite IH. reflexivity.
Qed.

(** X8. A flat list of [word_length] one-character strings is taken as one
    alphabet per position, each string being the alphabet of its own single
    character: the distribution has one outcome, the tuple of these
    characters, with probability 1. *)
Theorem uniform_joint_distribution_symbols (L : Z) (cs : list ascii) (h : heap) :
  0 < L →
  Z.of_nat (length cs) = L →
  uniform_joint_distribution L
    (VList (map (fun c => VStr (String c EmptyString)) cs)) h =
    (h ++ [mkDist JointDistribution [Real 1]
             [VTuple (map (fun c => VStr (String c EmptyString)) cs)] linear],
     Ok (length h)).
Proof.
  intros HL Hlen.
  set (al := map (fun c => VStr (String c EmptyString)) cs).
  rewrite (uniform_joint_distribution_ok L (VList al) al (map (fun x => [x]) al) h).
  - rewrite product_singletons. reflexivity.
  - apply resolve_alphabet_as_is. unfold al. rewrite length_map. exact Hlen.
  - unfold al, pools_of. clear. induction cs as [ | c cs IH ]; simpl; constructor.
    + reflexivity.
    + exact IH.
  - apply Forall_forall. intros pool Hpool.
    apply list_elem_of_fmap in Hpool as (x & -> & _). apply NoDup_singleton.
Qed.

Lemma uniform_joint_distribution_symbols_witness :
  uniform_joint_distribution 2 (VList [VStr "0"; VStr "1"]) [] =
    ([] ++ [mkDist JointDistribution [Real 1] [VTuple [VStr "0"; VStr "1"]] linear],
     Ok 0%nat).
Proof.
  apply (uniform_joint_distribution_symbols 2 ["0"%char; "1"%char] []).
  - lia.
  - reflexivity.
Defined.

Lemma uniform_joint_distribution_by_alphabet
    (L : Z) (a b : value) (h : heap) :
  resolve_alphabet L a = resolve_alphabet L b →
  uniform_joint_distribution L a h = uniform_joint_distribution L b h.
Proof.
  intros Heq. unfold uniform_joint_distribution, bind, lift. rewrite Heq. reflexivity.
Qed.

(** X9. Three ways to write the same alphabets give the same result of
    [uniform_joint_distribution], success or failure: an integer [k] and the
    one-alphabet list [[range(k)]]; a tuple of alphabets and the list of the
    same alphabets; and, for [word_length > 0], a one-alphabet list [[a]] and
    the list that repeats [a] once per position. *)
Theorem uniform_joint_distribution_spellings :
  (∀ (L k : Z) (h : heap),
     uniform_joint_distribution L (VInt k) h
     = uniform_joint_distribution L (VList [VList (map VInt (range k))]) h)
  ∧ (∀ (L : Z) (al : list value) (h : heap),
       uniform_joint_distribution L (VTuple al) h
       = uniform_joint_distribution L (VList al) h)
  ∧ (∀ (L : Z) (a : value) (h : heap),
       0 < L →
       uniform_joint_distribution L (VList [a]) h
       = uniform_joint_distribution L (VList (repeat a (Z.to_nat L))) h).
Proof.
  split_and!.
  - intros L k h. apply uniform_joint_distribution_by_alphabet. reflexivity.
  - intros L al h. apply uniform_joint_distribution_by_alphabet.
    rewrite (resolve_alphabet_sequence L (VTuple al) al) by (right; reflexivity).
    rewrite (resolve_alphabet_sequence L (VList al) al) by (left; reflexivity).
    reflexivity.
  - intros L a h HL. apply uniform_joint_distribution_by_alphabet.
    rewrite (resolve_alphabet_as_is L (repeat a (Z.to_nat L)))
      by (rewrite repeat_length; lia).
    reflexivity.
Qed.

Lemma uniform_joint_distribution_spellings_witness :
  uniform_joint_distribution 3 (VList [VStr "ab"]) []
  = uniform_joint_distribution 3 (VList (repeat (VStr "ab") (Z.to_nat 3))) [].
Proof.
  apply (proj2 (proj2 uniform_joint_distribution_spellings) 3 (VStr "ab") []). lia.
Defined.

(** ** Composition *)

(** X11. Two remappings in a row do what one remapping by the composed
    transform does: the second result has the outcomes [g(f(x))], in order,
    with the pmf, base and class of the original, provided these outcomes are
    pairwise distinct. Each step adds one object; the original and the
    intermediate distribution stay in the store. *)
Theorem modify_outcomes_compose
    (dist : loc) (f g : value → value) (h : heap) (d : distribution) :
  h !! dist = Some d →
  length (pmf d) = length (outcomes d) →
  NoDup (map g (map f (outcomes d))) →
  ∃ d1 d2 : distribution,
    (do l1 <- modify_outcomes dist f; modify_outcomes l1 g) h
    = (h ++ [d1; d2], Ok (S (length h)))
    ∧ modify_outcomes dist (fun x => g (f x)) h = (h ++ [d2], Ok (length h))
    ∧ outcomes d1 = map f (outcomes d)
    ∧ outcomes d2 = map (fun x => g (f x)) (outcomes d)
    ∧ pmf d2 = pmf d
    ∧ get_base d2 = get_base d
    ∧ class_of d2 = class_of d.
Proof.
  intros Hd Hlen Hnd.
  assert (Hndf : NoDup (map f (outcomes d))) by (apply (NoDup_fmap_1 g), Hnd).
  exists (mkDist (class_of d) (pmf d) (map f (outcomes d)) (get_base d)),
         (mkDist (class_of d) (pmf d) (map (fun x => g (f x)) (outcomes d)) (get_base d)).
  simpl. split_and!; try reflexivity.
  - unfold bind at 1.
    assert (H1 : modify_outcomes dist f h =
                 (h ++ [mkDist (class_of d) (pmf d) (map f (outcomes d)) (get_base d)],
                  Ok (length h))).
    { unfold modify_outcomes, bind, deref. rewrite Hd.
      apply new_ok; [ reflexivity | rewrite length_map; exact Hlen | exact Hndf ]. }
    rewrite H1. unfold modify_outcomes, bind, deref.
    rewrite list_lookup_middle by reflexivity. simpl.
    rewrite (new_ok _ _ _ (map g (map f (outcomes d)))).
    + rewrite <- app_assoc, length_app, map_map. simpl.
      replace (length h + 1)%nat with (S (length h)) by lia. reflexivity.
    + reflexivity.
    + rewrite !length_map. exact Hlen.
    + exact Hnd.
  - unfold modify_outcomes, bind, deref. rewrite Hd.
    apply new_ok; [ reflexivity | rewrite length_map; exact Hlen | ].
    rewrite <- map_map. exact Hnd.
Qed.

Lemma modify_outcomes_compose_witness :
  let d := mkDist Distribution [Real (1 # 2); Real (1 # 2)] [VInt 0; VInt 1] linear in
  ∃ d1 d2 : distribution,
    (do l1 <- modify_outcomes 0%nat incr; modify_outcomes l1 incr) [d]
    = ([d] ++ [d1; d2], Ok 2%nat)
    ∧ modify_outcomes 0%nat (fun x => incr (incr x)) [d] = ([d] ++ [d2], Ok 1%nat)
    ∧ outcomes d1 = [VInt 1; VInt 2]
    ∧ outcomes d2 = [VInt 2; VInt 3]
    ∧ pmf d2 = [Real (1 # 2); Real (1 # 2)]
    ∧ get_base d2 = linear
    ∧ class_of d2 = Distribution.
Proof.
  intros d. apply (modify_outcomes_compose 0%nat incr incr [d] d).
  - reflexivity.
  - reflexivity.
  - apply has_duplicates_NoDup. reflexivity.
Defined.

(** X12. The first docstring example, for every [n > 0]: building
    [uniform_distribution(n)] and remapping it with [lambda x: x + 1] adds
    two objects to the store and returns the second, a [Distribution] whose
    outcomes are [1], ..., [n] in order, each still with probability [1/n],
    in linear base; the first keeps the outcomes [0], ..., [n-1]. *)
Theorem modify_outcomes_uniform_incr (n : Z) (h : heap) :
  0 < n →
  ∃ d d' : distribution,
    (do l <- uniform_distribution (VInt n); modify_outcomes l incr) h
    = (h ++ [d; d'], Ok (S (length h)))
    ∧ outcomes d = map VInt (range n)
    ∧ outcomes d' = map (fun i => VInt (i + 1)) (range n)
    ∧ (∀ i : nat, (i < Z.to_nat n)%nat → outcomes d' !! i = Some (VInt (Z.of_nat i + 1)))
    ∧ pmf d' = repeat (Real (1 # Z.to_pos n)) (Z.to_nat n)
    ∧ pmf d' = pmf d
    ∧ get_base d' = linear
    ∧ class_of d' = Distribution.
Proof.
  intros Hn.
  set (p := repeat (Real (1 # Z.to_pos n)) (Z.to_nat n)).
  exists (mkDist Distribution p (map VInt (range n)) linear),
         (mkDist Distribution p (map (fun i => VInt (i + 1)) (range n)) linear).
  simpl. split_and!; try reflexivity.
  - unfold bind at 1. rewrite uniform_distribution_nonzero by lia.
    replace (Real (1 / inject_Z n)) with (Real (1 # Z.to_pos n))
      by (destruct n; try lia; reflexivity).
    fold p. unfold modify_outcomes, bind, deref.
    rewrite list_lookup_middle by reflexivity. simpl.
    rewrite (new_ok _ _ _ (map incr (map VInt (range n)))).
    + rewrite <- app_assoc, length_app, map_map. simpl.
      replace (length h + 1)%nat with (S (length h)) by lia. reflexivity.
    + reflexivity.
    + unfold p. rewrite repeat_length, !length_map, length_range. reflexivity.
    + rewrite map_map. simpl. apply NoDup_fmap_2; [ | apply NoDup_range ].
      intros a b [= Hab]. lia.
  - intros i Hi. rewrite list_lookup_fmap, (lookup_range _ _ Hi). reflexivity.
Qed.

Lemma modify_outcomes_uniform_incr_witness :
  ∃ d d' : distribution,
    (do l <- uniform_distribution (VInt 5); modify_outcomes l incr) []
    = ([] ++ [d; d'], Ok 1%nat)
    ∧ outcomes d = map VInt (range 5)
    ∧ outcomes d' = map (fun i => VInt (i + 1)) (range 5)
    ∧ (∀ i : nat, (i < Z.to_nat 5)%nat → outcomes d' !! i = Some (VInt (Z.of_nat i + 1)))
    ∧ pmf d' = repeat (Real (1 # Z.to_pos 5)) (Z.to_nat 5)
    ∧ pmf d' = pmf d
    ∧ get_base d' = linear
    ∧ class_of d' = Distribution.
Proof. apply (modify_outcomes_uniform_incr 5 []). lia. Defined.

(** ** The samplers and the store *)

Lemma uniform_distribution_well_formed (n : value) (h : heap) (d : distribution) (l : loc) :
  uniform_distribution n h = (h ++ [d], Ok l) → well_formed d.
Proof.
  unfold uniform_distribution, bind, lift.
  destruct (try_except_TypeError _ _) as [ [nOutcomes outs] | e ]; [ | intros [=] ].
  destruct (truediv_1 nOutcomes) as [ p | e ]; [ | intros [=] ].
  destruct (repeat_list p nOutcomes) as [ v | e ]; [ | intros [=] ].
  apply new_well_formed.
Qed.

Lemma uniform_joint_distribution_well_formed
    (word_length : Z) (alphabet_size : value) (h : heap) (d : distribution) (l : loc) :
  uniform_joint_distribution word_length alphabet_size h = (h ++ [d], Ok l) →
  well_formed d.
Proof.
  unfold uniform_joint_distribution, bind, lift.
  destruct (resolve_alphabet _ _) as [ alphabet | e ]; [ | intros [=] ].
  destruct (try_except_TypeError _ _) as [ nZ | e ]; [ | intros [=] ].
  destruct (map_result iterate alphabet) as [ pools | e ]; [ | intros [=] ].
  apply new_well_formed.
Qed.

Section SamplerStore.
Variable G : Type.
Variable dirichlet : G → list pyfloat → list pyfloat * G.
Variable default_prng : G.

(** What a sampler returns, from what its builder does. *)
Lemma sampler_cases (g : G) (skeleton : M loc) (h : heap) :
  allocates skeleton →
  let sampler :=
    (do d <- skeleton;
     do k <- len_dist d;
     let '(pmf, prng') := dirichlet g (np_ones k) in
     do _ <- set_pmf d pmf;
     ret (d, prng')) in
  (∃ d : distribution,
     skeleton h = (h ++ [d], Ok (length h))
     ∧ sampler h =
         (h ++ [with_pmf d (dirichlet g (repeat (Real 1) (length (outcomes d)))).1],
          Ok (length h, (dirichlet g (repeat (Real 1) (length (outcomes d)))).2)))
  ∨ (∃ e : exn, skeleton h = (h, Raise e) ∧ sampler h = (h, Raise e)).
Proof.
  intros Halloc sampler.
  pose proof (redraws_skeleton G dirichlet g skeleton Halloc h) as Hdraw.
  destruct (Halloc h) as [ (d & Hd) | (e & He) ].
  - left. rewrite Hd in Hdraw. destruct Hdraw as (d0 & Heq & _ & Hrun & _).
    apply app_inv_head in Heq. injection Heq as <-.
    exists d. split; [ exact Hd | exact Hrun ].
  - right. rewrite He in Hdraw. exists e. split; [ exact He | exact Hdraw ].
Qed.

Lemma sampler_keeps_store (g : G) (skeleton : M loc) :
  allocates skeleton →
  keeps_store
    (do d <- skeleton;
     do k <- len_dist d;
     let '(pmf, prng') := dirichlet g (np_ones k) in
     do _ <- set_pmf d pmf;
     ret (d, prng')).
Proof.
  intros Halloc h.
  destruct (sampler_cases g skeleton h Halloc) as [ (d & _ & Hrun) | (e & _ & Hrun) ].
  - eexists _, _. split; [ exact Hrun | ]. split.
    + intros l d0 Hl. apply lookup_app_l_Some, Hl.
    + split; [ apply lookup_ge_None_2; lia | rewrite length_app; simpl; lia ].
  - eexists _, _. split; [ exact Hrun | ]. split; [ intros l d Hl; exact Hl | reflexivity ].
Qed.

(** X13. The samplers change nothing that was in the store: the only object
    whose pmf [random_distribution] or [random_joint_distribution] assigns is
    the one it has just built. Every distribution that existed before the
    call is the same after it, the returned reference is new, and a call
    that raises leaves the store as it was. *)
Theorem random_distribution_keeps_store (prng : option G) :
  (∀ n : value,
     keeps_store (random_distribution G dirichlet default_prng n prng))
  ∧ (∀ (word_length : Z) (alphabet_size : value),
       keeps_store
         (random_joint_distribution G dirichlet default_prng
            word_length alphabet_size prng)).
Proof.
  split.
  - intros n. apply sampler_keeps_store, uniform_distribution_allocates.
  - intros word_length alphabet_size.
    apply sampler_keeps_store, uniform_joint_distribution_allocates.
Qed.

Lemma sampler_well_formed (g : G) (skeleton : M loc) :
  (∀ (alpha : list pyfloat) (g0 : G), length (dirichlet g0 alpha).1 = length alpha) →
  allocates skeleton →
  (∀ (h : heap) (d : distribution) (l : loc),
     skeleton h = (h ++ [d], Ok l) → well_formed d) →
  ∀ (h h' : heap) (l : loc) (g' : G),
    (do d <- skeleton;
     do k <- len_dist d;
     let '(pmf, prng') := dirichlet g (np_ones k) in
     do _ <- set_pmf d pmf;
     ret (d, prng')) h = (h', Ok (l, g')) →
    ∃ d : distribution,
      h' !! l = Some d ∧ well_formed d
      ∧ ∃ d0 : distribution,
          skeleton h = (h ++ [d0], Ok l)
          ∧ outcomes d = outcomes d0
          ∧ class_of d = class_of d0
          ∧ get_base d = get_base d0.
Proof.
  intros Hlen Halloc Hwf h h' l g' Hrun.
  destruct (sampler_cases g skeleton h Halloc) as [ (d & Hd & Hs) | (e & _ & Hs) ];
    rewrite Hs in Hrun; [ | discriminate Hrun ].
  injection Hrun as <- <- <-.
  eexists. split; [ apply list_lookup_middle; reflexivity | ].
  destruct (Hwf h d _ Hd) as [_ Hnd]. split.
  - split; simpl; [ | exact Hnd ]. rewrite Hlen, repeat_length. reflexivity.
  - exists d. split_and!; [ exact Hd | reflexivity | reflexivity | reflexivity ].
Qed.

(** X14. If the source's Dirichlet draw returns a vector as long as its
    parameter vector, the distribution that [random_distribution] or
    [random_joint_distribution] returns is well formed: it has one sampled
    probability per outcome, the outcomes being those, distinct, of the
    uniform skeleton, with its class and base. *)
Theorem random_distribution_aligned (prng : option G) :
  (∀ (alpha : list pyfloat) (g : G), length (dirichlet g alpha).1 = length alpha) →
  (∀ (n : value) (h h' : heap) (l : loc) (g' : G),
     random_distribution G dirichlet default_prng n prng h = (h', Ok (l, g')) →
     ∃ d : distribution,
       h' !! l = Some d ∧ well_formed d
       ∧ ∃ d0 : distribution,
           uniform_distribution n h = (h ++ [d0], Ok l)
           ∧ outcomes d = outcomes d0
           ∧ class_of d = class_of d0
           ∧ get_base d = get_base d0)
  ∧ (∀ (word_length : Z) (alphabet_size : value) (h h' : heap) (l : loc) (g' : G),
       random_joint_distribution G dirichlet default_prng
         word_length alphabet_size prng h = (h', Ok (l, g')) →
       ∃ d : distribution,
         h' !! l = Some d ∧ well_formed d
         ∧ ∃ d0 : distribution,
             uniform_joint_distribution word_length alphabet_size h = (h ++ [d0], Ok l)
             ∧ outcomes d = outcomes d0
             ∧ class_of d = class_of d0
             ∧ get_base d = get_base d0).
Proof.
  intros Hlen. split.
  - intros n. apply sampler_well_formed.
    + exact Hlen.
    + apply uniform_distribution_allocates.
    + intros h d l. apply uniform_distribution_well_formed.
  - intros word_length alphabet_size. apply sampler_well_formed.
    + exact Hlen.
    + apply uniform_joint_distribution_allocates.
    + intros h d l. apply uniform_joint_distribution_well_formed.
Qed.

End SamplerStore.

Lemma random_distribution_keeps_store_witness :
  let even := fun (g : nat) (alpha : list pyfloat) =>
                (map (fun _ => Real (1 # Pos.of_nat (length alpha))) alpha, S g) in
  keeps_store (random_distribution nat even 0%nat (VInt 2) None).
Proof.
  intros even.
  apply (proj1 (random_distribution_keeps_store nat even 0%nat None) (VInt 2)).
Defined.

Lemma random_distribution_aligned_witness :
  let even := fun (g : nat) (alpha : list pyfloat) =>
                (map (fun _ => Real (1 # Pos.of_nat (length alpha))) alpha, S g) in
  let h' := [mkDist Distribution [Real (1 # 2); Real (1 # 2)] [VInt 0; VInt 1] linear] in
  ∃ d : distribution,
    h' !! 0%nat = Some d ∧ well_formed d
    ∧ ∃ d0 : distribution,
        uniform_distribution (VInt 2) [] = ([] ++ [d0], Ok 0%nat)
        ∧ outcomes d = outcomes d0
        ∧ class_of d = class_of d0
        ∧ get_base d = get_base d0.
Proof.
  intros even h'.
  apply (proj1 (random_distribution_aligned nat even 0%nat (Some 7%nat)
                  (fun alpha g => length_map _ alpha))
           (VInt 2) [] h' 0%nat 8%nat).
  reflexivity.
Defined.
